(** * The sliding-window rate limiter of [src/lib/rateLimit.ts]

    A shallow embedding of the rate limiter (request logs, the keyed store,
    the admission check, the multi-policy check, the status query, the
    cleanup sweep and the statistics query) together with the properties
    the specification states about them.

    Conventions of the embedding.
    - [Date.now()] yields integer epoch milliseconds; every function that
      reads the clock takes the reading as an argument [now : Z].  Epoch
      milliseconds are not negative; the two properties that depend on it
      carry the premise [0 ≤ now].
    - The numeric fields of a policy are integers ([Z]).  The only
      non-integer the arithmetic of the file can produce from integers is
      [NaN] ([undefined + windowMs], when [timestamps[0]] is read from an
      empty array), so values that may hold it have type [number].
    - The module-level [store] (a [Map<string, RequestLog>]) is threaded
      through a small state monad. *)

From stdpp Require Import gmap strings list fin_maps sorting.
From Stdlib Require Import ZArith Lia.

Local Open Scope Z_scope.

(** ** JavaScript values the limiter computes with *)

Inductive number : Type :=
  | Int (z : Z)
  | NaN.

(** Truthiness of a number: [0] and [NaN] are falsy. *)
Definition truthy (n : number) : bool :=
  match n with
  | Int z => negb (z =? 0)
  | NaN => false
  end.

(** [n > now]; every comparison with [NaN] is false. *)
Definition gt_now (n : number) (now : Z) : bool :=
  match n with
  | Int z => now <? z
  | NaN => false
  end.

(** [oldestTimestamp + windowMs] where [oldestTimestamp = timestamps[0]]
    is [undefined] on an empty array. *)
Definition plus_window (oldest : option Z) (windowMs : Z) : number :=
  match oldest with
  | Some t => Int (t + windowMs)
  | None => NaN
  end.

(** ** Data model *)

Record RateLimitConfig : Type := {
  maxRequests : Z;
  windowMs : Z;
  message : option string
}.

Record RateLimitResult : Type := {
  allowed : bool;
  remaining : Z;
  resetAt : number;
  r_message : option string
}.

Record RequestLog : Type := {
  timestamps : list Z;
  blocked : bool;
  blockUntil : option number
}.

Abbreviation Store := (gmap string RequestLog).

(** ** The store monad *)

Definition M (A : Type) : Type := Store → A * Store.

Definition ret {A} (a : A) : M A := λ st, (a, st).

Definition bind {A B} (m : M A) (k : A → M B) : M B :=
  λ st, let '(a, st') := m st in k a st'.

Notation "'let*' x ':=' m 'in' k" := (bind m (λ x, k))
  (at level 10, x binder, k at level 200, only parsing).

(** [RateLimitStore.get], [RateLimitStore.set] and the [size] getter. *)
Definition store_get (key : string) : M (option RequestLog) :=
  λ st, (st !! key, st).

Definition store_set (key : string) (log : RequestLog) : M unit :=
  λ st, (tt, <[key := log]> st).

Definition store_size : M nat := λ st, (size st, st).

(** ** checkRateLimit *)

Definition default_denial : string :=
  "Rate limit exceeded. Please try again later.".

(** [message || 'Rate limit exceeded. ...']: an absent or empty message is
    falsy. *)
Definition denial_message (message : option string) : string :=
  match message with
  | Some (String c s) => String c s
  | _ => default_denial
  end.

Definition fresh_log : RequestLog :=
  {| timestamps := []; blocked := false; blockUntil := None |}.

(** The guard [log.blocked && log.blockUntil && log.blockUntil > now];
    when it holds, the value of [log.blockUntil]. *)
Definition active_block (now : Z) (log : RequestLog) : option number :=
  if blocked log then
    match blockUntil log with
    | Some b => if truthy b && gt_now b now then Some b else None
    | None => None
    end
  else None.

(** [timestamps.filter(t => now - t < windowMs)] *)
Definition in_window (now windowMs : Z) (ts : list Z) : list Z :=
  filter (λ t, now - t < windowMs) ts.

(** [log] is the stored object itself when the identifier is known, so
    the assignments to its fields write through; both paths that assign
    end in [store.set(identifier, log)], which is where the embedding
    performs the write.  The blocked path assigns nothing. *)
Definition checkRateLimit (identifier : string) (config : RateLimitConfig)
    (now : Z) : M RateLimitResult :=
  let* found := store_get identifier in
  let log := default fresh_log found in
  match active_block now log with
  | Some until =>
      ret {| allowed := false; remaining := 0; resetAt := until;
             r_message := Some (denial_message (message config)) |}
  | None =>
      let kept := in_window now (windowMs config) (timestamps log) in
      if maxRequests config <=? Z.of_nat (length kept) then
        let until := plus_window (head kept) (windowMs config) in
        let* _ := store_set identifier
          {| timestamps := kept; blocked := true; blockUntil := Some until |} in
        ret {| allowed := false; remaining := 0; resetAt := until;
               r_message := Some (denial_message (message config)) |}
      else
        let pushed := kept ++ [now] in
        let* _ := store_set identifier
          {| timestamps := pushed; blocked := false;
             blockUntil := blockUntil log |} in
        ret {| allowed := true;
               remaining := maxRequests config - Z.of_nat (length pushed);
               resetAt := plus_window (head pushed) (windowMs config);
               r_message := None |}
  end.

(** How an invocation completes.  The body of [checkRateLimit] has no
    [throw] statement and calls nothing that throws, so every invocation
    completes by returning. *)
Inductive completion (A : Type) : Type :=
  | Returns (a : A) (st : Store)
  | Throws (err : string).
Arguments Returns {A} a st.
Arguments Throws {A} err.

Definition checkRateLimit_completion (identifier : string)
    (config : RateLimitConfig) (now : Z) (st : Store)
    : completion RateLimitResult :=
  let '(r, st') := checkRateLimit identifier config now st in Returns r st'.

(** A run of successive [checkRateLimit] calls for one identifier, each
    with its policy and its clock reading. *)
Fixpoint run_checks (identifier : string)
    (calls : list (RateLimitConfig * Z)) : M (list RateLimitResult) :=
  match calls with
  | [] => ret []
  | (config, now) :: rest =>
      let* r := checkRateLimit identifier config now in
      let* rs := run_checks identifier rest in
      ret (r :: rs)
  end.

(** The calls of one policy at the given times. *)
Definition at_times (config : RateLimitConfig) (times : list Z)
    : list (RateLimitConfig * Z) :=
  (λ now, (config, now)) <$> times.

(** ** checkMultipleRateLimits

    Every iteration reads the clock inside [checkRateLimit], and the final
    result reads it once more; [clock i] is the [i]-th reading made during
    the invocation. *)
Fixpoint checkMultipleRateLimits (identifier : string)
    (configs : list RateLimitConfig) (clock : nat → Z) : M RateLimitResult :=
  match configs with
  | [] =>
      ret {| allowed := true; remaining := -1; resetAt := Int (clock 0%nat);
             r_message := None |}
  | config :: rest =>
      let* result := checkRateLimit identifier config (clock 0%nat) in
      if allowed result
      then checkMultipleRateLimits identifier rest (λ i, clock (S i))
      else ret result
  end.

(** ** getRateLimitStatus *)

Record RateLimitStatus : Type := {
  current : Z;
  max : Z;
  s_remaining : Z;
  s_resetAt : Z
}.

(** [recentRequests[0] || now]: an absent first element and the number [0]
    are both falsy. *)
Definition oldest_or_now (recent : list Z) (now : Z) : Z :=
  match recent with
  | t :: _ => if t =? 0 then now else t
  | [] => now
  end.

Definition getRateLimitStatus (identifier : string) (config : RateLimitConfig)
    (now : Z) : M RateLimitStatus :=
  let* found := store_get identifier in
  match found with
  | None =>
      ret {| current := 0; max := maxRequests config;
             s_remaining := maxRequests config;
             s_resetAt := now + windowMs config |}
  | Some log =>
      let recentRequests := in_window now (windowMs config) (timestamps log) in
      let count := Z.of_nat (length recentRequests) in
      ret {| current := count; max := maxRequests config;
             s_remaining := Z.max 0 (maxRequests config - count);
             s_resetAt := oldest_or_now recentRequests now + windowMs config |}
  end.

(** ** RateLimitStore.cleanup *)

(** [log.timestamps.some(t => t > oneHourAgo)] with
    [oneHourAgo = now - 60 * 60 * 1000]. *)
Definition has_recent_requests (now : Z) (log : RequestLog) : bool :=
  existsb (λ t, now - 60 * 60 * 1000 <? t) (timestamps log).

(** [log.blocked && log.blockUntil && log.blockUntil > now], as a
    condition. *)
Definition is_blocked (now : Z) (log : RequestLog) : bool :=
  match active_block now log with Some _ => true | None => false end.

(** One iteration of the loop over [this.store.entries()]. *)
Definition sweep_entry (now : Z) (st : Store) (entry : string * RequestLog)
    : Store :=
  let '(key, log) := entry in
  if negb (has_recent_requests now log) && negb (is_blocked now log)
  then delete key st
  else st.

(** The sweep visits every entry once; deleting the entry being visited
    does not disturb the iteration of a [Map]. *)
Definition cleanup (now : Z) : M unit :=
  λ st, (tt, fold_left (sweep_entry now) (map_to_list st) st).

(** ** getRateLimitStats

    The loop ranges over [Array.from(store.get.toString())] when
    [store.get.length] is truthy.  [store.get] is the method [get(key)]:
    its [length] is its number of declared parameters, and its [toString()]
    is its source text, which the embedding takes as an argument. *)

Inductive value : Type :=
  | VString (s : string)
  | VLog (log : RequestLog).

Definition store_get_length : Z := 1.

(** [Array.from(text)]: the characters of the text, each a string. *)
Fixpoint array_from (text : string) : list value :=
  match text with
  | EmptyString => []
  | String c rest => VString (String c EmptyString) :: array_from rest
  end.

(** [typeof v] *)
Definition typeof (v : value) : string :=
  match v with
  | VString _ => "string"
  | VLog _ => "object"
  end.

(** Truthiness of a value: the empty string is falsy, an object truthy. *)
Definition value_truthy (v : value) : bool :=
  match v with
  | VString EmptyString => false
  | _ => true
  end.

(** ['blocked' in v], which the guard evaluates on objects only; a
    [RequestLog] always has the property. *)
Definition has_blocked (v : value) : bool :=
  match v with
  | VLog _ => true
  | VString _ => false
  end.

(** The loop body: the new value of [blockedCount]. *)
Definition count_blocked (now : Z) (blockedCount : nat) (v : value) : nat :=
  if value_truthy v && bool_decide (typeof v = "object") && has_blocked v then
    match v with
    | VLog typedLog =>
        if is_blocked now typedLog then S blockedCount else blockedCount
    | VString _ => blockedCount
    end
  else blockedCount.

Record RateLimitStats : Type := {
  totalKeys : nat;
  blockedCount : nat
}.

Definition getRateLimitStats (get_source : string) (now : Z)
    : M RateLimitStats :=
  let iterated :=
    if negb (store_get_length =? 0) then array_from get_source else [] in
  let counted := fold_left (count_blocked now) iterated 0%nat in
  let* n := store_size in
  ret {| totalKeys := n; blockedCount := counted |}.

(** ** createRateLimitKey, resetRateLimit, clearAllRateLimits,
       rateLimitMiddleware and the default policies *)

(** The template literal [`${identifier}:${endpoint}`]. *)
Definition createRateLimitKey (identifier endpoint : string) : string :=
  identifier +:+ ":" +:+ endpoint.

(** [store.set(identifier, { timestamps: [], blocked: false })] *)
Definition resetRateLimit (identifier : string) : M unit :=
  store_set identifier fresh_log.

(** [RateLimitStore.clear] *)
Definition store_clear : M unit := λ _, (tt, ∅).

Definition clearAllRateLimits : M unit := store_clear.

(** The closure [rateLimitMiddleware(config)] returns; it reads the clock
    when it is called. *)
Definition rateLimitMiddleware (config : RateLimitConfig)
    : string → Z → M RateLimitResult :=
  λ identifier now, checkRateLimit identifier config now.

(** [DEFAULT_RATE_LIMITS] *)
Definition DEFAULT_RATE_LIMITS_global : RateLimitConfig :=
  {| maxRequests := 60; windowMs := 60 * 1000;
     message := Some "Too many requests. Please try again later." |}.

Definition DEFAULT_RATE_LIMITS_upload : RateLimitConfig :=
  {| maxRequests := 10; windowMs := 60 * 1000;
     message :=
       Some "Too many upload requests. Please wait before uploading again." |}.

Definition DEFAULT_RATE_LIMITS_ocr : RateLimitConfig :=
  {| maxRequests := 5; windowMs := 60 * 1000;
     message :=
       Some "Too many OCR requests. Please wait before processing more documents." |}.

Definition DEFAULT_RATE_LIMITS_api : RateLimitConfig :=
  {| maxRequests := 30; windowMs := 60 * 1000;
     message :=
       Some "API rate limit exceeded. Please slow down your requests." |}.

(** * Vocabulary of the properties *)

(** The denial both denying paths return. *)
Definition denied (config : RateLimitConfig) (until : number)
    : RateLimitResult :=
  {| allowed := false; remaining := 0; resetAt := until;
     r_message := Some (denial_message (message config)) |}.

(** The decision of [checkRateLimit] read off the log alone: the result,
    and the log written back ([None] on the blocked path, which writes
    nothing). *)
Definition check_log (config : RateLimitConfig) (now : Z) (log : RequestLog)
    : RateLimitResult * option RequestLog :=
  match active_block now log with
  | Some until => (denied config until, None)
  | None =>
      let kept := in_window now (windowMs config) (timestamps log) in
      if maxRequests config <=? Z.of_nat (length kept) then
        let until := plus_window (head kept) (windowMs config) in
        (denied config until,
         Some {| timestamps := kept; blocked := true;
                 blockUntil := Some until |})
      else
        ({| allowed := true;
            remaining := maxRequests config - Z.of_nat (length (kept ++ [now]));
            resetAt := plus_window (head (kept ++ [now])) (windowMs config);
            r_message := None |},
         Some {| timestamps := kept ++ [now]; blocked := false;
                 blockUntil := blockUntil log |})
  end.

(** The log a call works on: the stored one, or a fresh one. *)
Definition log_of (st : Store) (identifier : string) : RequestLog :=
  default fresh_log (st !! identifier).

(** The store after a call that wrote [written] back. *)
Definition write_back (identifier : string) (written : option RequestLog)
    (st : Store) : Store :=
  match written with
  | Some log => <[identifier := log]> st
  | None => st
  end.

(** A run of calls for one identifier, read off its log alone. *)
Fixpoint run_log (calls : list (RateLimitConfig * Z)) (log : RequestLog)
    : list RateLimitResult * RequestLog :=
  match calls with
  | [] => ([], log)
  | (config, now) :: rest =>
      let '(r, written) := check_log config now log in
      let '(rs, final) := run_log rest (default log written) in
      (r :: rs, final)
  end.

(** The policy and the clock readings of the concrete scenario. *)
Definition scenario_policy (message : option string) : RateLimitConfig :=
  {| maxRequests := 2; windowMs := 5000; message := message |}.

Definition scenario_times : list Z := [0; 100; 200; 5001].

(** The scenario as the specification words it. *)
Definition scenario_as_specified (rs : list RateLimitResult) : Prop :=
  ∃ r0 r1 r2 r3, rs = [r0; r1; r2; r3] ∧
    (allowed r0 = true ∧ remaining r0 = 1) ∧
    (allowed r1 = true ∧ remaining r1 = 0) ∧
    (allowed r2 = false ∧ resetAt r2 = Int 5000) ∧
    (allowed r3 = true ∧ remaining r3 = 1).

(** A policy outside the specified range: [maxRequests] or [windowMs] is
    not positive. *)
Definition invalid_policy (config : RateLimitConfig) : Prop :=
  maxRequests config ≤ 0 ∨ windowMs config ≤ 0.

(** Policies, logs and stores used as concrete inputs. *)
Definition zero_quota : RateLimitConfig :=
  {| maxRequests := 0; windowMs := 60000; message := None |}.

(** The condition under which the sweep deletes an entry:
    [!hasRecentRequests && !isBlocked]. *)
Definition sweepable (now : Z) (log : RequestLog) : bool :=
  negb (has_recent_requests now log) && negb (is_blocked now log).

(** No timestamp newer than one hour before [now]. *)
Definition idle (now : Z) (log : RequestLog) : Prop :=
  ∀ t, t ∈ timestamps log → ¬ now - 3600000 < t.

(** [blocked = true] with [blockUntil > now]. *)
Definition actively_blocked (now : Z) (log : RequestLog) : Prop :=
  blocked log = true ∧ ∃ b, blockUntil log = Some (Int b) ∧ now < b.

Definition idle_blocked_store : Store :=
  {[ "client" := {| timestamps := [0]; blocked := true;
                    blockUntil := Some (Int 9000000) |} ]}.

(** The calls [checkMultipleRateLimits] makes if no config denies: each
    config with the clock reading of its iteration. *)
Fixpoint iterations (configs : list RateLimitConfig) (clock : nat → Z)
    : list (RateLimitConfig * Z) :=
  match configs with
  | [] => []
  | config :: rest => (config, clock 0%nat) :: iterations rest (λ i, clock (S i))
  end.

(** Every result of a run is Allowed. *)
Definition all_allowed (rs : list RateLimitResult) : Prop :=
  Forall (λ r, allowed r = true) rs.

(** The case of the specification: a lenient policy followed by a strict
    one that is already exhausted. *)
Definition lenient : RateLimitConfig :=
  {| maxRequests := 10; windowMs := 60000; message := Some "lenient" |}.

Definition strict : RateLimitConfig :=
  {| maxRequests := 1; windowMs := 60000; message := Some "strict" |}.

Definition one_request : Store :=
  {[ "client" := {| timestamps := [0]; blocked := false;
                    blockUntil := None |} ]}.

(** The state C4 starts from: latched, with [blockUntil] anchored at the
    oldest stored timestamp. *)
Definition latched_on_oldest (config : RateLimitConfig) (log : RequestLog)
    (oldest : Z) : Prop :=
  blocked log = true ∧ head (timestamps log) = Some oldest ∧
  blockUntil log = Some (Int (oldest + windowMs config)).

Definition roomy : RateLimitConfig :=
  {| maxRequests := 3; windowMs := 1000; message := None |}.

Definition tight : RateLimitConfig :=
  {| maxRequests := 2; windowMs := 1000; message := None |}.

(** The number of Allowed results of a run. *)
Definition count_allowed (rs : list RateLimitResult) : nat :=
  length (filter (λ r, allowed r = true) rs).

(** Clock readings within one window from [start]. *)
Definition within_window (config : RateLimitConfig) (start t : Z) : Prop :=
  start ≤ t < start + windowMs config.

(** What holds of a log after a call at clock reading [now], when all
    its calls used [config]: the timestamps are oldest first, none is
    later than [now], all are inside the window, and a latch is anchored
    at the oldest of them. *)
Definition settled (config : RateLimitConfig) (now : Z) (log : RequestLog)
    : Prop :=
  StronglySorted Z.le (timestamps log) ∧
  Forall (λ t, t ≤ now) (timestamps log) ∧
  Forall (λ t, now - t < windowMs config) (timestamps log) ∧
  (blocked log = true →
   ∃ oldest, head (timestamps log) = Some oldest ∧
             blockUntil log = Some (Int (oldest + windowMs config))).

Definition zero_window : RateLimitConfig :=
  {| maxRequests := 1; windowMs := 0; message := None |}.

(** The clock readings of the calls that were Allowed. *)
Fixpoint admitted (times : list Z) (rs : list RateLimitResult) : list Z :=
  match times, rs with
  | t :: times', r :: rs' =>
      if allowed r then t :: admitted times' rs' else admitted times' rs'
  | _, _ => []
  end.

(** [t] lies in the window of length [window] that ends at [stop]. *)
Definition in_span (window stop t : Z) : Prop := stop - window < t ∧ t ≤ stop.

(** What a run under one policy keeps about the clock readings [granted]
    it has admitted so far: the log and [granted] agree inside the current
    window, the log is within the quota, and so is every window of
    [granted]. *)
Definition tracks (config : RateLimitConfig) (now : Z) (log : RequestLog)
    (granted : list Z) : Prop :=
  in_window now (windowMs config) (timestamps log) =
    in_window now (windowMs config) granted ∧
  Z.of_nat (length (timestamps log)) ≤ maxRequests config ∧
  ∀ stop, Z.of_nat (length (filter (in_span (windowMs config) stop) granted))
          ≤ maxRequests config.

(** A log the sweep removes at reading 4000000, although it is latched:
    the latch is over. *)
Definition long_idle_store : Store :=
  {[ "client" := {| timestamps := [0; 5]; blocked := true;
                    blockUntil := Some (Int 60000) |} ]}.

(** What holds of a log after a call at clock reading [now] when all its
    calls used [config]: it is settled, within the quota, and a latch means
    the quota is used up. *)
Definition steady (config : RateLimitConfig) (now : Z) (log : RequestLog)
    : Prop :=
  settled config now log ∧
  Z.of_nat (length (timestamps log)) ≤ maxRequests config ∧
  (blocked log = true →
   maxRequests config ≤ Z.of_nat (length (timestamps log))).

(** The operations the module exports (and the sweep its timer runs), as
    the calls of a session. *)
Inductive api_call : Type :=
  | Check (identifier : string) (config : RateLimitConfig) (now : Z)
  | CheckMultiple (identifier : string) (configs : list RateLimitConfig)
      (clock : nat → Z)
  | Reset (identifier : string)
  | ClearAll
  | Sweep (now : Z)
  | Status (identifier : string) (config : RateLimitConfig) (now : Z)
  | Stats (get_source : string) (now : Z).

(** The store a call leaves. *)
Definition perform (call : api_call) (st : Store) : Store :=
  match call with
  | Check identifier config now => (checkRateLimit identifier config now st).2
  | CheckMultiple identifier configs clock =>
      (checkMultipleRateLimits identifier configs clock st).2
  | Reset identifier => (resetRateLimit identifier st).2
  | ClearAll => (clearAllRateLimits st).2
  | Sweep now => (cleanup now st).2
  | Status identifier config now =>
      (getRateLimitStatus identifier config now st).2
  | Stats get_source now => (getRateLimitStats get_source now st).2
  end.

(** The store after a session that starts with the empty store of a new
    process. *)
Definition session (calls : list api_call) : Store :=
  fold_left (λ st call, perform call st) calls ∅.

(** Every stored log is [sound]. *)
Definition all_sound (sound : RequestLog → Prop) (st : Store) : Prop :=
  ∀ key log, st !! key = Some log → sound log.

(** Every policy a call passes is [admissible]. *)
Definition admissible_call (admissible : RateLimitConfig → Prop)
    (call : api_call) : Prop :=
  match call with
  | Check _ config _ => admissible config
  | CheckMultiple _ configs _ => Forall admissible configs
  | _ => True
  end.

(** Every policy a call passes has [maxRequests >= 1]. *)
Definition quota_positive_in (call : api_call) : Prop :=
  admissible_call (λ config, 1 ≤ maxRequests config) call.

(** No character of the string is a colon (character code 58). *)
Fixpoint colon_free (s : string) : bool :=
  match s with
  | EmptyString => true
  | String c rest => negb (Ascii.eqb c (Ascii.ascii_of_nat 58)) && colon_free rest
  end.

(** * Properties *)

(** ** What one call does to the log of its identifier *)

Lemma log_of_Some (st : Store) identifier log :
  st !! identifier = Some log → log_of st identifier = log.
Proof. unfold log_of. by intros ->. Qed.

Lemma log_of_None (st : Store) identifier :
  st !! identifier = None → log_of st identifier = fresh_log.
Proof. unfold log_of. by intros ->. Qed.

Lemma checkRateLimit_check_log identifier config now st :
  checkRateLimit identifier config now st =
  ((check_log config now (log_of st identifier)).1,
   write_back identifier (check_log config now (log_of st identifier)).2 st).
Proof.
  unfold checkRateLimit, check_log, log_of, bind, store_get, store_set, ret.
  destruct (active_block now (default fresh_log (st !! identifier))); [done|].
  by case_match.
Qed.

Lemma log_of_write_back identifier written st :
  log_of (write_back identifier written st) identifier =
  default (log_of st identifier) written.
Proof.
  unfold log_of, write_back. destruct written; [|done].
  by rewrite lookup_insert_eq.
Qed.

Lemma write_back_other identifier other written st :
  identifier ≠ other →
  write_back identifier written st !! other = st !! other.
Proof.
  intros Hne. unfold write_back. destruct written; [|done].
  by rewrite lookup_insert_ne.
Qed.

(** A denial always reports [remaining = 0]. *)
Lemma check_log_denied_remaining config now log :
  allowed (check_log config now log).1 = false →
  remaining (check_log config now log).1 = 0.
Proof.
  unfold check_log. destruct (active_block now log); [done|].
  by case_match.
Qed.

Lemma active_block_Some now log b :
  active_block now log = Some b ↔
  blocked log = true ∧ blockUntil log = Some b ∧
  ∃ z, b = Int z ∧ z ≠ 0 ∧ now < z.
Proof.
  unfold active_block. split.
  - destruct (blocked log); [|done].
    destruct (blockUntil log) as [[z|]|]; simpl; try done.
    destruct (Z.eqb_spec z 0); simpl; [done|].
    destruct (Z.ltb_spec now z); [|done].
    intros [= <-]. repeat split. by exists z.
  - intros (-> & -> & z & -> & Hz & Hlt). simpl.
    destruct (Z.eqb_spec z 0); [done|].
    destruct (Z.ltb_spec now z); [done|lia].
Qed.

Lemma run_checks_run_log identifier calls : ∀ st,
  (run_checks identifier calls st).1 = (run_log calls (log_of st identifier)).1 ∧
  log_of (run_checks identifier calls st).2 identifier =
    (run_log calls (log_of st identifier)).2 ∧
  ∀ other, identifier ≠ other →
    (run_checks identifier calls st).2 !! other = st !! other.
Proof.
  induction calls as [|[config now] rest IH]; intros st; [done|].
  cbn [run_checks run_log]. unfold bind, ret.
  rewrite checkRateLimit_check_log.
  destruct (check_log config now (log_of st identifier)) as [r written].
  cbn [fst snd].
  specialize (IH (write_back identifier written st)).
  rewrite log_of_write_back in IH.
  destruct (run_checks identifier rest (write_back identifier written st))
    as [rs st'].
  destruct (run_log rest (default (log_of st identifier) written))
    as [rs' final].
  cbn [fst snd] in *. destruct IH as (Hrs & Hfinal & Hother).
  split; [by rewrite Hrs|]. split; [done|].
  intros other Hne. by rewrite Hother, write_back_other.
Qed.

(** ** The log never outgrows the quota of a single policy *)
Lemma check_log_length config now log :
  Z.of_nat (length (timestamps log)) ≤ maxRequests config →
  Z.of_nat (length (timestamps (default log (check_log config now log).2)))
  ≤ maxRequests config.
Proof.
  intros Hlen. unfold check_log.
  destruct (active_block now log); [done|].
  pose proof (length_filter (λ t, now - t < windowMs config) (timestamps log))
    as Hkept. unfold in_window.
  destruct (Z.leb_spec (maxRequests config)
    (Z.of_nat (length (filter (λ t, now - t < windowMs config)
                         (timestamps log)))));
    simpl; [lia|].
  rewrite length_app. simpl. lia.
Qed.

Lemma run_log_length config times : ∀ log,
  Z.of_nat (length (timestamps log)) ≤ maxRequests config →
  Z.of_nat (length (timestamps (run_log (at_times config times) log).2))
  ≤ maxRequests config.
Proof.
  induction times as [|now rest IH]; intros log Hlen; [done|].
  cbn [at_times fmap list_fmap run_log]. fold (at_times config rest).
  pose proof (check_log_length config now log Hlen) as Hstep.
  destruct (check_log config now log) as [r written]. cbn [snd] in Hstep.
  specialize (IH (default log written) Hstep).
  by destruct (run_log (at_times config rest) (default log written)).
Qed.

(** ** C1: the quota invariant *)

Lemma in_window_all now window (ts : list Z) :
  Forall (λ t, now - t < window) ts → in_window now window ts = ts.
Proof.
  intros Hall. unfold in_window.
  induction Hall as [|t ts Ht _ IH]; [done|].
  rewrite filter_cons_True by done. by rewrite IH.
Qed.

Section one_window.
Context (config : RateLimitConfig) (start : Z).

(** While every call and every stored timestamp lies within one window
    from [start], nothing is purged, so each admission adds one to the
    length of the log, which never exceeds [maxRequests]. *)
Lemma run_log_allowed_bound times : ∀ log,
  Forall (within_window config start) times →
  Forall (λ t, start ≤ t) (timestamps log) →
  Z.of_nat (length (timestamps log)) ≤ maxRequests config →
  Z.of_nat (count_allowed (run_log (at_times config times) log).1) +
    Z.of_nat (length (timestamps log)) ≤ maxRequests config.
Proof.
  induction times as [|now rest IH]; intros log Htimes Hstored Hlen.
  { unfold count_allowed. simpl. lia. }
  apply Forall_cons in Htimes as [Hnow Hrest].
  assert (in_window now (windowMs config) (timestamps log) = timestamps log)
    as Hkept.
  { apply in_window_all. eapply Forall_impl; [exact Hstored|].
    unfold within_window in Hnow. simpl. intros t Ht. lia. }
  cbn [at_times fmap list_fmap run_log]. unfold check_log. rewrite Hkept.
  destruct (active_block now log) as [until|].
  - specialize (IH log Hrest Hstored Hlen). cbn [default].
    fold (at_times config rest).
    destruct (run_log (at_times config rest) log) as [rs final].
    cbn [fst] in *. unfold count_allowed in *.
    rewrite filter_cons_False by done. exact IH.
  - destruct (Z.leb_spec (maxRequests config)
      (Z.of_nat (length (timestamps log)))) as [Hfull|Hroom].
    + cbn [default]. fold (at_times config rest).
      specialize (IH {| timestamps := timestamps log; blocked := true;
        blockUntil := Some (plus_window (head (timestamps log))
                              (windowMs config)) |} Hrest Hstored Hlen).
      destruct (run_log (at_times config rest) _) as [rs final].
      cbn [fst timestamps] in *. unfold count_allowed in *.
      rewrite filter_cons_False by done. exact IH.
    + cbn [default]. fold (at_times config rest).
      specialize (IH {| timestamps := timestamps log ++ [now];
        blocked := false; blockUntil := blockUntil log |} Hrest).
      destruct (run_log (at_times config rest) _) as [rs final].
      cbn [fst timestamps] in *. unfold count_allowed in *.
      rewrite filter_cons_True by done. cbn [length].
      rewrite length_app in IH. cbn [length] in IH.
      assert (Forall (λ t, start ≤ t) (timestamps log ++ [now])) as Hpushed.
      { apply Forall_app. split; [done|]. apply Forall_singleton.
        unfold within_window in Hnow. lia. }
      specialize (IH Hpushed). lia.
Qed.
End one_window.

(** C1: for a policy with [maxRequests >= 1] and [windowMs >= 1], in a run
    of calls for one identifier that starts from an empty log and whose
    clock readings all lie within one window of the first, at most
    [maxRequests] results are Allowed. *)
Theorem quota_invariant identifier config first later (st : Store) :
  1 ≤ maxRequests config →
  1 ≤ windowMs config →
  timestamps (log_of st identifier) = [] →
  Forall (λ t, first ≤ t < first + windowMs config) later →
  Z.of_nat
    (count_allowed
       (run_checks identifier (at_times config (first :: later)) st).1)
  ≤ maxRequests config.
Proof.
  intros Hmax Hwin Hempty Hlater.
  destruct (run_checks_run_log identifier
    (at_times config (first :: later)) st) as (-> & _ & _).
  pose proof (run_log_allowed_bound config first (first :: later)
    (log_of st identifier)) as Hbound.
  rewrite Hempty in Hbound. cbn [length] in Hbound.
  assert (Forall (within_window config first) (first :: later)) as Htimes.
  { apply Forall_cons. split; [unfold within_window; lia|done]. }
  specialize (Hbound Htimes (Forall_nil_2 _)). lia.
Qed.

Lemma quota_invariant_witness :
  1 ≤ maxRequests tight ∧ 1 ≤ windowMs tight ∧
  timestamps (log_of ∅ "client") = [] ∧
  Forall (λ t, 0 ≤ t < 0 + windowMs tight) [0; 5; 999] ∧
  Z.of_nat
    (count_allowed
       (run_checks "client" (at_times tight (0 :: [0; 5; 999])) ∅).1)
  ≤ maxRequests tight.
Proof.
  assert (1 ≤ maxRequests tight) as Hmax by (simpl; lia).
  assert (1 ≤ windowMs tight) as Hwin by (simpl; lia).
  assert (timestamps (log_of ∅ "client") = []) as Hempty by reflexivity.
  assert (Forall (λ t, 0 ≤ t < 0 + windowMs tight) [0; 5; 999]) as Hlater
    by (repeat constructor; simpl; lia).
  split; [exact Hmax|]. split; [exact Hwin|]. split; [exact Hempty|].
  split; [exact Hlater|].
  exact (quota_invariant "client" tight 0 [0; 5; 999] ∅
           Hmax Hwin Hempty Hlater).
Defined.

(** The bound is reached: both requests of the first two readings are
    admitted, the others denied. *)
Example quota_reached :
  count_allowed
    (run_checks "client" (at_times tight (0 :: [0; 5; 999])) ∅).1 = 2%nat.
Proof. vm_compute. reflexivity. Qed.

(** ** C2: the concrete scenario *)

(** C2, as stated, fails: the call at t=5001 is admitted with
    [remaining = 0], not 1, because the request of t=100 is still inside
    the window. *)
Lemma scenario_as_specified_fails :
  ¬ scenario_as_specified
      (run_checks "203.0.113.7"
         (at_times (scenario_policy None) scenario_times) ∅).1.
Proof.
  intros (r0 & r1 & r2 & r3 & Hrs & _ & _ & _ & _ & Hrem).
  vm_compute in Hrs. injection Hrs as _ _ _ <-. by vm_compute in Hrem.
Qed.

(** C2 (amended): with policy {maxRequests: 2, windowMs: 5000} and a
    fresh identifier, the calls at t=0, 100, 200 and 5001 return Allowed
    with remaining 1 (resetAt 5000), Allowed with remaining 0, Denied with
    resetAt 5000, and Allowed with remaining 0 and resetAt 5100. *)
Theorem scenario_results identifier message (st : Store) :
  st !! identifier = None →
  (run_checks identifier
     (at_times (scenario_policy message) scenario_times) st).1 =
  [ {| allowed := true; remaining := 1; resetAt := Int 5000;
       r_message := None |};
    {| allowed := true; remaining := 0; resetAt := Int 5000;
       r_message := None |};
    {| allowed := false; remaining := 0; resetAt := Int 5000;
       r_message := Some (denial_message message) |};
    {| allowed := true; remaining := 0; resetAt := Int 5100;
       r_message := None |} ].
Proof.
  intros Hfresh.
  destruct (run_checks_run_log identifier
    (at_times (scenario_policy message) scenario_times) st) as (-> & _ & _).
  unfold log_of. rewrite Hfresh. reflexivity.
Qed.

Lemma scenario_results_witness :
  (∅ : Store) !! "203.0.113.7" = None ∧
  (run_checks "203.0.113.7"
     (at_times (scenario_policy None) scenario_times) ∅).1 =
  [ {| allowed := true; remaining := 1; resetAt := Int 5000;
       r_message := None |};
    {| allowed := true; remaining := 0; resetAt := Int 5000;
       r_message := None |};
    {| allowed := false; remaining := 0; resetAt := Int 5000;
       r_message := Some (denial_message None) |};
    {| allowed := true; remaining := 0; resetAt := Int 5100;
       r_message := None |} ].
Proof.
  split; [reflexivity|].
  apply (scenario_results "203.0.113.7" None ∅). reflexivity.
Defined.

(** ** C3: the blocking latch *)

(** A denial leaves the identifier latched, with [blockUntil] the
    [resetAt] it reported. *)
Lemma check_log_denied_latches config now log :
  allowed (check_log config now log).1 = false →
  blocked (default log (check_log config now log).2) = true ∧
  blockUntil (default log (check_log config now log).2) =
    Some (resetAt (check_log config now log).1).
Proof.
  unfold check_log. destruct (active_block now log) as [until|] eqn:Hblock.
  - intros _. by apply active_block_Some in Hblock as (? & ? & _).
  - by case_match.
Qed.

(** While the latch is active a call is answered from it and writes
    nothing. *)
Lemma check_log_latched config now log b :
  blocked log = true → blockUntil log = Some (Int b) → 0 ≤ now < b →
  check_log config now log = (denied config (Int b), None).
Proof.
  intros Hblocked Huntil Hnow. unfold check_log.
  assert (active_block now log = Some (Int b)) as ->; [|done].
  apply active_block_Some. repeat split; [done..|].
  exists b. repeat split; lia.
Qed.

Lemma run_checks_latched identifier b calls (st : Store) :
  blocked (log_of st identifier) = true →
  blockUntil (log_of st identifier) = Some (Int b) →
  Forall (λ call : RateLimitConfig * Z, 0 ≤ call.2 < b) calls →
  run_checks identifier calls st =
    ((λ call : RateLimitConfig * Z, denied call.1 (Int b)) <$> calls, st).
Proof.
  intros Hblocked Huntil Hcalls.
  induction Hcalls as [|[config now] rest Hnow _ IH]; [done|].
  cbn [run_checks]. unfold bind, ret.
  rewrite checkRateLimit_check_log.
  rewrite (check_log_latched config now _ b) by done.
  cbn [fst snd write_back]. by rewrite IH.
Qed.

(** C3: once a call has denied a request, reporting [resetAt = b], the
    identifier is latched ([blocked = true], [blockUntil = b]); every later
    call for it, under any policy, at a clock reading (of epoch
    milliseconds, so not negative) before [b] is Denied with remaining 0 and
    resetAt [b], and the store, hence the stored timestamps, stays as the
    denial left it. *)
Theorem blocking_latch identifier config now0 (st0 : Store) b calls :
  allowed (checkRateLimit identifier config now0 st0).1 = false →
  resetAt (checkRateLimit identifier config now0 st0).1 = Int b →
  Forall (λ call : RateLimitConfig * Z, 0 ≤ call.2 < b) calls →
  let st := (checkRateLimit identifier config now0 st0).2 in
  blocked (log_of st identifier) = true ∧
  blockUntil (log_of st identifier) = Some (Int b) ∧
  (run_checks identifier calls st).1 =
    (λ call : RateLimitConfig * Z,
       {| allowed := false; remaining := 0; resetAt := Int b;
          r_message := Some (denial_message (message call.1)) |}) <$> calls ∧
  (run_checks identifier calls st).2 = st ∧
  timestamps (log_of (run_checks identifier calls st).2 identifier) =
    timestamps (log_of st identifier).
Proof.
  intros Hdenied Hreset Hcalls st. subst st.
  rewrite checkRateLimit_check_log in *. cbn [fst snd] in *.
  rewrite log_of_write_back.
  destruct (check_log_denied_latches config now0 (log_of st0 identifier)
              Hdenied) as [Hblocked Huntil].
  rewrite Hreset in Huntil. split; [done|]. split; [done|].
  rewrite (run_checks_latched identifier b calls); cbn [fst snd].
  - split; [done|]. split; [done|]. by rewrite log_of_write_back.
  - by rewrite log_of_write_back.
  - by rewrite log_of_write_back.
  - done.
Qed.

Lemma blocking_latch_witness :
  let st0 : Store :=
    {[ "client" := {| timestamps := [1000]; blocked := false;
                      blockUntil := None |} ]} in
  let calls := [(strict, 1500); (lenient, 2000); (strict, 60999)] in
  let st := (checkRateLimit "client" strict 1200 st0).2 in
  allowed (checkRateLimit "client" strict 1200 st0).1 = false ∧
  resetAt (checkRateLimit "client" strict 1200 st0).1 = Int 61000 ∧
  Forall (λ call : RateLimitConfig * Z, 0 ≤ call.2 < 61000) calls ∧
  blocked (log_of st "client") = true ∧
  blockUntil (log_of st "client") = Some (Int 61000) ∧
  (run_checks "client" calls st).1 =
    (λ call : RateLimitConfig * Z,
       {| allowed := false; remaining := 0; resetAt := Int 61000;
          r_message := Some (denial_message (message call.1)) |}) <$> calls ∧
  (run_checks "client" calls st).2 = st ∧
  timestamps (log_of (run_checks "client" calls st).2 "client") =
    timestamps (log_of st "client").
Proof.
  intros st0 calls st.
  assert (allowed (checkRateLimit "client" strict 1200 st0).1 = false)
    as Hdenied by reflexivity.
  assert (resetAt (checkRateLimit "client" strict 1200 st0).1 = Int 61000)
    as Hreset by reflexivity.
  assert (Forall (λ call : RateLimitConfig * Z, 0 ≤ call.2 < 61000) calls)
    as Hcalls by (repeat constructor; simpl; lia).
  split; [exact Hdenied|]. split; [exact Hreset|]. split; [exact Hcalls|].
  exact (blocking_latch "client" strict 1200 st0 61000 calls
           Hdenied Hreset Hcalls).
Defined.

(** ** C4: recovery after the block *)


(** After the block has expired the oldest timestamp is purged; if the
    log held no more than [maxRequests] timestamps, that makes room. *)
Lemma check_after_block identifier config now (st : Store) log oldest :
  st !! identifier = Some log →
  latched_on_oldest config log oldest →
  Z.of_nat (length (timestamps log)) ≤ maxRequests config →
  oldest + windowMs config < now →
  allowed (checkRateLimit identifier config now st).1 = true ∧
  ∃ log', (checkRateLimit identifier config now st).2 !! identifier = Some log' ∧
          blocked log' = false.
Proof.
  intros Hlog (Hblocked & Hhead & Huntil) Hlen Hafter.
  rewrite checkRateLimit_check_log, (log_of_Some st identifier log Hlog).
  unfold check_log.
  assert (active_block now log = None) as ->.
  { unfold active_block. rewrite Hblocked, Huntil. simpl.
    destruct (Z.ltb_spec now (oldest + windowMs config)); [lia|].
    by rewrite andb_false_r. }
  assert (length (in_window now (windowMs config) (timestamps log)) <
          length (timestamps log))%nat as Hshorter.
  { apply (length_filter_lt _ _ oldest); [|lia].
    destruct (timestamps log); [done|]. injection Hhead as ->.
    apply elem_of_cons. by left. }
  destruct (Z.leb_spec (maxRequests config)
    (Z.of_nat (length (in_window now (windowMs config) (timestamps log)))));
    [lia|].
  cbn [fst snd write_back allowed]. split; [done|].
  eexists. split; [apply lookup_insert_eq|done].
Qed.



(** When every call for the identifier used the one policy, starting from
    an empty log, the premise on the length holds, whatever the clock
    readings were: a latch on the oldest timestamp is then always followed
    by an admission once it has expired. *)
Lemma same_policy_recovery identifier config times now (st : Store) log oldest :
  0 ≤ maxRequests config →
  timestamps (log_of st identifier) = [] →
  (run_checks identifier (at_times config times) st).2 !! identifier = Some log →
  latched_on_oldest config log oldest →
  oldest + windowMs config < now →
  allowed (checkRateLimit identifier config now
             (run_checks identifier (at_times config times) st).2).1 = true.
Proof.
  intros Hmax Hempty Hlog Hlatched Hafter.
  eapply check_after_block; [exact Hlog|exact Hlatched| |exact Hafter].
  destruct (run_checks_run_log identifier (at_times config times) st)
    as (_ & Hfinal & _).
  rewrite (log_of_Some _ _ _ Hlog) in Hfinal. rewrite Hfinal.
  apply run_log_length. rewrite Hempty. simpl. lia.
Qed.

(** ** C5: policies outside the specified range *)

(** C5, as stated, fails: a policy with [maxRequests = 0] is not rejected;
    the first call for a fresh identifier returns a denial whose [resetAt]
    is [NaN], and latches the identifier. *)
Lemma invalid_policy_not_rejected :
  invalid_policy zero_quota ∧
  checkRateLimit_completion "client" zero_quota 0 ∅ =
    Returns (denied zero_quota NaN)
      {[ "client" := {| timestamps := []; blocked := true;
                        blockUntil := Some NaN |} ]} ∧
  ¬ ∃ err, checkRateLimit_completion "client" zero_quota 0 ∅ = Throws err.
Proof.
  split; [left; done|].
  assert (checkRateLimit_completion "client" zero_quota 0 ∅ =
    Returns (denied zero_quota NaN)
      {[ "client" := {| timestamps := []; blocked := true;
                        blockUntil := Some NaN |} ]}) as Hrun
    by (vm_compute; reflexivity).
  split; [exact Hrun|]. intros [err Herr]. by rewrite Hrun in Herr.
Qed.

Lemma in_window_none now window (ts : list Z) :
  window ≤ 0 → Forall (λ t, t ≤ now) ts → in_window now window ts = [].
Proof.
  intros Hwin Hpast. unfold in_window.
  induction Hpast as [|t ts Ht _ IH]; [done|].
  rewrite filter_cons_False by lia. exact IH.
Qed.

(** C5 (amended): [checkRateLimit] validates nothing.  For a policy whose
    maxRequests or windowMs is not positive it still completes by returning
    an admission decision.  With [maxRequests <= 0] every call is Denied
    with remaining 0; for an identifier the store does not hold, that
    denial has [resetAt = NaN] and stores the identifier latched, with no
    timestamp and [blockUntil = NaN].  With [maxRequests >= 1] and
    [windowMs <= 0] a call for an identifier that is not under an active
    block and whose stored timestamps are not in the future is Allowed with
    remaining [maxRequests - 1]. *)
Theorem checkRateLimit_decides_invalid_policy identifier config now st :
  invalid_policy config →
  ∃ r st',
    checkRateLimit_completion identifier config now st = Returns r st' ∧
    (maxRequests config ≤ 0 → allowed r = false ∧ remaining r = 0) ∧
    (maxRequests config ≤ 0 → st !! identifier = None →
     resetAt r = NaN ∧
     st' !! identifier =
       Some {| timestamps := []; blocked := true; blockUntil := Some NaN |}) ∧
    (1 ≤ maxRequests config → windowMs config ≤ 0 →
     active_block now (log_of st identifier) = None →
     Forall (λ t, t ≤ now) (timestamps (log_of st identifier)) →
     allowed r = true ∧ remaining r = maxRequests config - 1).
Proof.
  intros _. unfold checkRateLimit_completion.
  rewrite checkRateLimit_check_log. eexists _, _. split; [reflexivity|].
  split; [|split].
  - unfold check_log. intros Hmax.
    destruct (active_block now (log_of st identifier)); [done|].
    destruct (Z.leb_spec (maxRequests config)
      (Z.of_nat (length (in_window now (windowMs config)
        (timestamps (log_of st identifier)))))); [done|lia].
  - intros Hmax Hnew. rewrite (log_of_None st identifier Hnew).
    unfold check_log. cbn. change (Z.of_nat 0) with 0.
    destruct (Z.leb_spec (maxRequests config) 0); [|lia].
    cbn. split; [done|]. apply lookup_insert_eq.
  - unfold check_log. intros Hmax Hwin -> Hpast.
    rewrite in_window_none by done.
    destruct (Z.leb_spec (maxRequests config) (Z.of_nat (length (@nil Z))));
      simpl in *; [lia|]. split; [done|lia].
Qed.

Lemma checkRateLimit_decides_invalid_policy_witness :
  invalid_policy zero_quota ∧ invalid_policy zero_window ∧
  (∃ r st',
     checkRateLimit_completion "client" zero_quota 0 ∅ = Returns r st' ∧
     allowed r = false ∧ remaining r = 0 ∧ resetAt r = NaN ∧
     st' !! "client" =
       Some {| timestamps := []; blocked := true; blockUntil := Some NaN |}) ∧
  (∃ r st',
     checkRateLimit_completion "client" zero_window 7 one_request
       = Returns r st' ∧
     allowed r = true ∧ remaining r = maxRequests zero_window - 1).
Proof.
  assert (invalid_policy zero_quota) as Hquota by (left; simpl; lia).
  assert (invalid_policy zero_window) as Hwindow by (right; simpl; lia).
  split; [exact Hquota|]. split; [exact Hwindow|]. split.
  - destruct (checkRateLimit_decides_invalid_policy "client" zero_quota 0 ∅
                Hquota) as (r & st' & Hreturns & Hdenied & Hfresh & _).
    assert (maxRequests zero_quota ≤ 0) as Hmax by (simpl; lia).
    assert ((∅ : Store) !! "client" = None) as Hnew by reflexivity.
    destruct (Hdenied Hmax) as [Hallowed Hremaining].
    destruct (Hfresh Hmax Hnew) as [Hreset Hstored].
    exists r, st'. split; [exact Hreturns|]. split; [exact Hallowed|].
    split; [exact Hremaining|]. split; [exact Hreset|exact Hstored].
  - destruct (checkRateLimit_decides_invalid_policy "client" zero_window 7
                one_request Hwindow) as (r & st' & Hreturns & _ & _ & Hadmit).
    assert (1 ≤ maxRequests zero_window) as Hmax by (simpl; lia).
    assert (windowMs zero_window ≤ 0) as Hwin by (simpl; lia).
    assert (active_block 7 (log_of one_request "client") = None) as Hfree
      by reflexivity.
    assert (Forall (λ t, t ≤ 7) (timestamps (log_of one_request "client")))
      as Hpast by (repeat constructor; lia).
    destruct (Hadmit Hmax Hwin Hfree Hpast) as [Hallowed Hremaining].
    exists r, st'. split; [exact Hreturns|]. split; [exact Hallowed|].
    exact Hremaining.
Defined.

(** ** C6: checkMultipleRateLimits *)

Lemma checkMultipleRateLimits_app identifier passing : ∀ clock st later,
  all_allowed (run_checks identifier (iterations passing clock) st).1 →
  checkMultipleRateLimits identifier (passing ++ later) clock st =
  checkMultipleRateLimits identifier later
    (λ i, clock (length passing + i)%nat)
    (run_checks identifier (iterations passing clock) st).2.
Proof.
  induction passing as [|config rest IH]; intros clock st later Hall; [done|].
  cbn [app checkMultipleRateLimits iterations run_checks] in *.
  unfold bind, ret in *.
  destruct (checkRateLimit identifier config (clock 0%nat) st) as [r st1].
  specialize (IH (λ i, clock (S i)) st1 later).
  destruct (run_checks identifier (iterations rest (λ i, clock (S i))) st1)
    as [rs st2].
  cbn [fst snd] in *. apply Forall_cons in Hall as [-> Hall]. by apply IH.
Qed.

Lemma check_log_denied_keeps config now log t :
  allowed (check_log config now log).1 = false →
  t ∈ timestamps log → now - t < windowMs config →
  t ∈ timestamps (default log (check_log config now log).2).
Proof.
  unfold check_log. destruct (active_block now log); [done|].
  case_match; [|done]. simpl. intros _ Hin Hfresh.
  by apply list_elem_of_filter.
Qed.

(** C6: [checkMultipleRateLimits] runs [checkRateLimit] on the configs in
    order.  As long as the configs allow, it goes on; if all of them allow it
    returns Allowed with remaining -1 and resetAt the clock reading taken
    after the loop.  The first config that denies ends the call: its result
    (with remaining 0) is returned, the store is the one that call left
    behind on top of the earlier calls, whatever configs follow, and every
    timestamp the earlier calls left in the log that is inside the denying
    config's window is still in the log. *)
Theorem checkMultipleRateLimits_first_denial identifier passing clock
    (st : Store) :
  all_allowed (run_checks identifier (iterations passing clock) st).1 →
  checkMultipleRateLimits identifier passing clock st =
    ({| allowed := true; remaining := -1;
        resetAt := Int (clock (length passing)); r_message := None |},
     (run_checks identifier (iterations passing clock) st).2) ∧
  ∀ denying later,
    let st1 := (run_checks identifier (iterations passing clock) st).2 in
    let now := clock (length passing) in
    allowed (checkRateLimit identifier denying now st1).1 = false →
    checkMultipleRateLimits identifier (passing ++ denying :: later) clock st =
      checkRateLimit identifier denying now st1 ∧
    remaining (checkRateLimit identifier denying now st1).1 = 0 ∧
    ∀ t, t ∈ timestamps (log_of st1 identifier) →
         now - t < windowMs denying →
         t ∈ timestamps
               (log_of (checkRateLimit identifier denying now st1).2
                  identifier).
Proof.
  intros Hall. split.
  - rewrite <- (app_nil_r passing) at 1.
    rewrite checkMultipleRateLimits_app by done.
    cbn [checkMultipleRateLimits]. unfold ret. by rewrite Nat.add_0_r.
  - intros denying later st1 now Hdenied. subst st1 now.
    rewrite checkMultipleRateLimits_app by done.
    cbn [checkMultipleRateLimits]. unfold bind, ret.
    rewrite Nat.add_0_r.
    destruct (checkRateLimit identifier denying (clock (length passing))
      (run_checks identifier (iterations passing clock) st).2)
      as [r st2] eqn:Hcall.
    cbn [fst snd] in *. rewrite Hdenied. split; [done|].
    rewrite checkRateLimit_check_log in Hcall. injection Hcall as <- <-.
    split; [by apply check_log_denied_remaining|].
    intros t Hin Hfresh. rewrite log_of_write_back.
    by apply check_log_denied_keeps.
Qed.

Lemma checkMultipleRateLimits_first_denial_witness :
  let clock := λ _ : nat, 5 in
  let st1 := (run_checks "client" (iterations [lenient] clock) one_request).2 in
  all_allowed
    (run_checks "client" (iterations [lenient] clock) one_request).1 ∧
  allowed (checkRateLimit "client" strict 5 st1).1 = false ∧
  checkMultipleRateLimits "client" [lenient] clock one_request =
    ({| allowed := true; remaining := -1; resetAt := Int 5;
        r_message := None |}, st1) ∧
  checkMultipleRateLimits "client" [lenient; strict] clock one_request =
    checkRateLimit "client" strict 5 st1 ∧
  remaining (checkRateLimit "client" strict 5 st1).1 = 0 ∧
  5 ∈ timestamps (log_of (checkRateLimit "client" strict 5 st1).2 "client").
Proof.
  intros clock st1.
  assert (all_allowed
    (run_checks "client" (iterations [lenient] clock) one_request).1) as Hall.
  { constructor; [reflexivity|constructor]. }
  assert (allowed (checkRateLimit "client" strict 5 st1).1 = false) as Hdeny
    by reflexivity.
  destruct (checkMultipleRateLimits_first_denial "client" [lenient] clock
              one_request Hall) as [Hpass Hfirst].
  destruct (Hfirst strict [] Hdeny) as (Hsame & Hrem & Hkept).
  split; [exact Hall|]. split; [exact Hdeny|]. split; [exact Hpass|].
  split; [exact Hsame|]. split; [exact Hrem|].
  apply Hkept; [|reflexivity].
  change (5 ∈ [0; 5]). apply elem_of_cons. right. apply elem_of_cons. by left.
Defined.

(** The denial carries the strict policy's message, and the request has
    been counted in the log by the lenient policy's check. *)
Example checkMultipleRateLimits_lenient_then_strict :
  let '(r, st) :=
    checkMultipleRateLimits "client" [lenient; strict] (λ _, 5) one_request in
  allowed r = false ∧ remaining r = 0 ∧ r_message r = Some "strict" ∧
  timestamps (log_of st "client") = [0; 5].
Proof. vm_compute. repeat split; reflexivity. Qed.

(** ** C7: every retained timestamp is inside the window *)

Section same_policy.
Context (config : RateLimitConfig).
Hypothesis quota_positive : 1 ≤ maxRequests config.
Hypothesis window_positive : 1 ≤ windowMs config.

Lemma settled_fresh now : settled config now fresh_log.
Proof. unfold settled. simpl. repeat split; by try constructor. Qed.

Lemma in_window_sorted now (ts : list Z) :
  StronglySorted Z.le ts →
  StronglySorted Z.le (in_window now (windowMs config) ts).
Proof.
  unfold in_window. induction 1 as [|t ts _ IH Hle]; [constructor|].
  destruct (decide (now - t < windowMs config)).
  - rewrite filter_cons_True by done. constructor; [done|].
    apply Forall_forall. intros t' Hin.
    apply list_elem_of_filter in Hin as [_ Hin].
    by apply (proj1 (Forall_forall _ _) Hle).
  - by rewrite filter_cons_False.
Qed.

Lemma in_window_inside now (ts : list Z) :
  Forall (λ t, now - t < windowMs config) (in_window now (windowMs config) ts).
Proof.
  apply Forall_forall. intros t Hin.
  by apply list_elem_of_filter in Hin as [? _].
Qed.

Lemma in_window_past prev now (ts : list Z) :
  prev ≤ now → Forall (λ t, t ≤ prev) ts →
  Forall (λ t, t ≤ now) (in_window now (windowMs config) ts).
Proof.
  intros Hle Hpast. apply Forall_forall. intros t Hin.
  apply list_elem_of_filter in Hin as [_ Hin].
  apply (proj1 (Forall_forall _ _) Hpast) in Hin. lia.
Qed.

(** One call keeps the log settled, whichever path answers it. *)
Lemma check_log_settled prev now log :
  settled config prev log → prev ≤ now →
  settled config now (default log (check_log config now log).2).
Proof.
  intros (Hsorted & Hpast & Hinside & Hlatch) Hle. unfold check_log.
  destruct (active_block now log) as [until|] eqn:Hblock.
  - (* answered from the latch: nothing is purged *)
    apply active_block_Some in Hblock
      as (Hblocked & Huntil & z & -> & _ & Hbefore).
    destruct (Hlatch Hblocked) as (oldest & Hhead & Huntil').
    rewrite Huntil in Huntil'. injection Huntil' as ->.
    cbn [snd default]. repeat split; [done| |  |done].
    + eapply Forall_impl; [exact Hpast|]. simpl. intros t Ht. lia.
    + destruct (timestamps log) as [|t ts]; [done|].
      injection Hhead as ->. apply StronglySorted_cons in Hsorted as [Hmin _].
      apply Forall_cons. split; [lia|].
      eapply Forall_impl; [exact Hmin|]. simpl. intros t Ht. lia.
  - pose proof (in_window_sorted now _ Hsorted) as Hsorted'.
    pose proof (in_window_inside now (timestamps log)) as Hinside'.
    pose proof (in_window_past prev now _ Hle Hpast) as Hpast'.
    destruct (Z.leb_spec (maxRequests config)
      (Z.of_nat (length (in_window now (windowMs config) (timestamps log)))))
      as [Hfull|Hroom]; cbn [snd default].
    + (* quota reached: latch on the oldest kept timestamp *)
      repeat split; [done..|]. intros _. cbn [timestamps blockUntil].
      destruct (in_window now (windowMs config) (timestamps log))
        as [|oldest kept]; [simpl in Hfull; lia|].
      by exists oldest.
    + (* admitted: [now] is pushed *)
      repeat split; cbn [timestamps blocked]; [| | |done].
      * apply StronglySorted_app_2; [|done|repeat constructor].
        intros t t' Hin ->%list_elem_of_singleton.
        by apply (proj1 (Forall_forall _ _) Hpast').
      * apply Forall_app. split; [done|]. by apply Forall_singleton.
      * apply Forall_app. split; [done|]. apply Forall_singleton. lia.
Qed.

Lemma run_log_settled earlier : ∀ log prev now,
  settled config prev log →
  StronglySorted Z.le (prev :: earlier ++ [now]) →
  settled config now (run_log (at_times config (earlier ++ [now])) log).2.
Proof.
  induction earlier as [|t rest IH]; intros log prev now Hlog Htimes.
  - cbn [app at_times fmap list_fmap run_log]. cbn [app] in Htimes.
    apply StronglySorted_cons in Htimes as [Hle _].
    rewrite Forall_singleton in Hle.
    pose proof (check_log_settled prev now log Hlog Hle) as Hstep.
    destruct (check_log config now log) as [r written]. exact Hstep.
  - cbn [app at_times fmap list_fmap run_log].
    fold (at_times config (rest ++ [now])). cbn [app] in Htimes.
    apply StronglySorted_cons in Htimes as [Hle Htimes].
    apply Forall_cons in Hle as [Hle _].
    pose proof (check_log_settled prev t log Hlog Hle) as Hstep.
    destruct (check_log config t log) as [r written]. cbn [snd] in Hstep.
    specialize (IH (default log written) t now Hstep Htimes).
    destruct (run_log (at_times config (rest ++ [now])) (default log written)).
    exact IH.
Qed.
End same_policy.

(** C7, as stated, fails for a policy whose [windowMs] is not positive:
    the first call at t=0 under {maxRequests: 1, windowMs: 0} is admitted and
    stores its own timestamp, for which [now - t = 0] is not below
    [windowMs = 0]. *)
Lemma zero_window_retains_outside :
  1 ≤ maxRequests zero_window ∧
  log_of ∅ "client" = fresh_log ∧
  Sorted Z.le ([] ++ [0]) ∧
  timestamps
    (log_of (run_checks "client" (at_times zero_window ([] ++ [0])) ∅).2
       "client") = [0] ∧
  ¬ Forall (λ t, 0 - t < windowMs zero_window)
      (timestamps
         (log_of (run_checks "client" (at_times zero_window ([] ++ [0])) ∅).2
            "client")).
Proof.
  split; [simpl; lia|]. split; [reflexivity|].
  split; [repeat constructor|].
  assert (timestamps
    (log_of (run_checks "client" (at_times zero_window ([] ++ [0])) ∅).2
       "client") = [0]) as Hlog by (vm_compute; reflexivity).
  split; [exact Hlog|]. rewrite Hlog. intros Hall.
  apply Forall_cons in Hall as [Hzero _]. simpl in Hzero. lia.
Qed.

(** C7 (amended): when all calls for an identifier use one policy with
    [maxRequests >= 1] and [windowMs >= 1], start from a fresh log and have
    non-decreasing clock readings, then after every call, at reading [now],
    every timestamp in the identifier's stored log satisfies
    [now - timestamp < windowMs]; this includes the calls answered from the
    blocked path. *)
Theorem retained_inside_window identifier config earlier now (st : Store) :
  1 ≤ maxRequests config →
  1 ≤ windowMs config →
  log_of st identifier = fresh_log →
  Sorted Z.le (earlier ++ [now]) →
  Forall (λ t, now - t < windowMs config)
    (timestamps
       (log_of (run_checks identifier (at_times config (earlier ++ [now])) st).2
          identifier)).
Proof.
  intros Hmax Hwin Hfresh Htimes.
  destruct (run_checks_run_log identifier
    (at_times config (earlier ++ [now])) st) as (_ & -> & _).
  rewrite Hfresh. apply Sorted_StronglySorted in Htimes; [|apply _].
  assert (∃ prev, StronglySorted Z.le (prev :: earlier ++ [now]))
    as [prev Hprev].
  { destruct earlier as [|t rest].
    - exists now. repeat constructor. lia.
    - exists t. constructor; [done|].
      apply Forall_cons. split; [lia|].
      by apply StronglySorted_cons in Htimes as [? _]. }
  by destruct (run_log_settled config Hmax Hwin earlier fresh_log prev now
                 (settled_fresh config prev) Hprev) as (_ & _ & ? & _).
Qed.

Lemma retained_inside_window_witness :
  1 ≤ maxRequests tight ∧ 1 ≤ windowMs tight ∧
  log_of ∅ "client" = fresh_log ∧
  Sorted Z.le ([0; 10; 20] ++ [30]) ∧
  Forall (λ t, 30 - t < windowMs tight)
    (timestamps
       (log_of (run_checks "client" (at_times tight ([0; 10; 20] ++ [30])) ∅).2
          "client")).
Proof.
  assert (1 ≤ maxRequests tight) as Hmax by (simpl; lia).
  assert (1 ≤ windowMs tight) as Hwin by (simpl; lia).
  assert (log_of ∅ "client" = fresh_log) as Hfresh by reflexivity.
  assert (Sorted Z.le ([0; 10; 20] ++ [30])) as Htimes
    by (repeat constructor; lia).
  split; [exact Hmax|]. split; [exact Hwin|]. split; [exact Hfresh|].
  split; [exact Htimes|].
  exact (retained_inside_window "client" tight [0; 10; 20] 30 ∅
           Hmax Hwin Hfresh Htimes).
Defined.

(** In that run the call at t=20 latches the identifier and the call at
    t=30 is answered from the latch, which purges nothing. *)
Example latched_run :
  (run_checks "client" (at_times tight ([0; 10; 20] ++ [30])) ∅).1 =
  [ {| allowed := true; remaining := 1; resetAt := Int 1000;
       r_message := None |};
    {| allowed := true; remaining := 0; resetAt := Int 1000;
       r_message := None |};
    denied tight (Int 1000); denied tight (Int 1000) ].
Proof. vm_compute. reflexivity. Qed.

(** ** C8: the cleanup sweep *)

Lemma has_recent_requests_false now log :
  has_recent_requests now log = false ↔ idle now log.
Proof.
  unfold has_recent_requests, idle.
  rewrite <- not_true_iff_false, existsb_exists. split.
  - intros Hnone t Ht Hnew. apply Hnone. exists t.
    split; [by apply list_elem_of_In|]. apply Z.ltb_lt. lia.
  - intros Hidle (t & Ht & Hnew). apply (Hidle t); [by apply list_elem_of_In|].
    apply Z.ltb_lt in Hnew. lia.
Qed.

(** With a non-negative clock reading, the guard of the code is the
    active block of the specification: a [blockUntil] in the future is
    then neither [0] nor [NaN]. *)
Lemma is_blocked_true now log :
  0 ≤ now → is_blocked now log = true ↔ actively_blocked now log.
Proof.
  intros Hnow. unfold is_blocked, actively_blocked. split.
  - destruct (active_block now log) as [b|] eqn:Hb; [|done].
    apply active_block_Some in Hb as (? & ? & z & -> & ? & ?). eauto.
  - intros (Hblocked & b & Huntil & Hlt).
    assert (active_block now log = Some (Int b)) as ->; [|done].
    apply active_block_Some. repeat split; [done..|].
    exists b. repeat split; lia.
Qed.

Section sweep.
Context (now : Z) (key : string).

Lemma sweep_gone entries : ∀ st : Store,
  st !! key = None → fold_left (sweep_entry now) entries st !! key = None.
Proof.
  induction entries as [|[k log] rest IH]; intros st Hgone; [done|].
  simpl. apply IH. case_match; [|done].
  destruct (decide (k = key)) as [->|Hne].
  - apply lookup_delete_eq.
  - by rewrite lookup_delete_ne.
Qed.

Lemma sweep_removes entries log : ∀ st : Store,
  (key, log) ∈ entries → sweepable now log = true →
  fold_left (sweep_entry now) entries st !! key = None.
Proof.
  induction entries as [|[k log'] rest IH]; intros st Hin Hsweep.
  - by apply not_elem_of_nil in Hin.
  - apply elem_of_cons in Hin as [[= <- <-]|Hin].
    + simpl. fold (sweepable now log). rewrite Hsweep.
      apply sweep_gone, lookup_delete_eq.
    + simpl. by apply IH.
Qed.

Lemma sweep_keeps entries : ∀ st : Store,
  (∀ log, (key, log) ∈ entries → sweepable now log = false) →
  fold_left (sweep_entry now) entries st !! key = st !! key.
Proof.
  induction entries as [|[k log'] rest IH]; intros st Hkeep; [done|].
  simpl. rewrite IH.
  - fold (sweepable now log'). destruct (sweepable now log') eqn:Hs; [|done].
    destruct (decide (k = key)) as [->|Hne].
    + rewrite (Hkeep log') in Hs; [done|]. apply elem_of_cons. by left.
    + by rewrite lookup_delete_ne.
  - intros log Hin. apply Hkeep, elem_of_cons. by right.
Qed.
End sweep.

Lemma cleanup_lookup now (st : Store) key log :
  st !! key = Some log →
  (cleanup now st).2 !! key = if sweepable now log then None else Some log.
Proof.
  intros Hlog. unfold cleanup. simpl. destruct (sweepable now log) eqn:Hs.
  - apply (sweep_removes now key _ log); [|done].
    by apply elem_of_map_to_list.
  - rewrite sweep_keeps; [done|].
    intros log' Hin. apply elem_of_map_to_list in Hin. congruence.
Qed.

(** C8: after one run of the sweep at a clock reading [now] (of epoch
    milliseconds, so not negative), an entry that was in the store is gone
    exactly when it has no timestamp newer than one hour before [now] and is
    not actively blocked; an entry that is kept is kept unchanged, and an
    actively blocked one is always kept. *)
Theorem cleanup_removes_exactly now (st : Store) key log :
  0 ≤ now →
  st !! key = Some log →
  ((cleanup now st).2 !! key = None ↔
     idle now log ∧ ¬ actively_blocked now log) ∧
  ((cleanup now st).2 !! key = None ∨ (cleanup now st).2 !! key = Some log) ∧
  (actively_blocked now log → (cleanup now st).2 !! key = Some log).
Proof.
  intros Hnow Hlog. rewrite (cleanup_lookup now st key log Hlog).
  unfold sweepable.
  pose proof (has_recent_requests_false now log) as Hidle.
  pose proof (is_blocked_true now log Hnow) as Hblock.
  destruct (has_recent_requests now log), (is_blocked now log); simpl;
    (split; [|split]); try tauto; try (right; done); try (left; done).
  - split; [done|]. intros [Hi _]. apply Hidle in Hi. done.
  - split; [done|]. intros [Hi _]. apply Hidle in Hi. done.
  - split; [done|]. intros [_ Hn]. destruct Hn. by apply Hblock.
  - split; [intros _|done]. split; [by apply Hidle|].
    intros Hb. apply Hblock in Hb. done.
  - intros Hb. apply Hblock in Hb. done.
Qed.

Lemma cleanup_removes_exactly_witness :
  let log := {| timestamps := [0]; blocked := true;
                blockUntil := Some (Int 9000000) |} in
  0 ≤ 8000000 ∧ idle_blocked_store !! "client" = Some log ∧
  ((cleanup 8000000 idle_blocked_store).2 !! "client" = None ↔
     idle 8000000 log ∧ ¬ actively_blocked 8000000 log) ∧
  ((cleanup 8000000 idle_blocked_store).2 !! "client" = None ∨
   (cleanup 8000000 idle_blocked_store).2 !! "client" = Some log) ∧
  (actively_blocked 8000000 log →
   (cleanup 8000000 idle_blocked_store).2 !! "client" = Some log).
Proof.
  intros log.
  assert (0 ≤ 8000000) as Hnow by lia.
  assert (idle_blocked_store !! "client" = Some log) as Hlog by reflexivity.
  split; [exact Hnow|]. split; [exact Hlog|].
  exact (cleanup_removes_exactly 8000000 idle_blocked_store "client" log
           Hnow Hlog).
Defined.

(** ** C9: getRateLimitStatus *)

(** C9: [getRateLimitStatus] leaves the store as it found it; for a stored
    log, [current] is the number of stored timestamps [t] with
    [now - t < windowMs] and [remaining] is [max 0 (maxRequests - current)];
    with no stored log the status is [current = 0],
    [remaining = maxRequests], [resetAt = now + windowMs]. *)
Theorem getRateLimitStatus_read_only identifier config now (st : Store) :
  (getRateLimitStatus identifier config now st).2 = st ∧
  let status := (getRateLimitStatus identifier config now st).1 in
  match st !! identifier with
  | Some log =>
      current status =
        Z.of_nat (length (filter (λ t, now - t < windowMs config)
                            (timestamps log))) ∧
      s_remaining status = Z.max 0 (maxRequests config - current status)
  | None =>
      current status = 0 ∧
      s_remaining status = maxRequests config ∧
      s_resetAt status = now + windowMs config
  end.
Proof.
  unfold getRateLimitStatus, bind, store_get, ret.
  destruct (st !! identifier) as [log|]; simpl; done.
Qed.

(** ** C10: getRateLimitStats *)

Lemma count_blocked_strings now text n :
  fold_left (count_blocked now) (array_from text) n = n.
Proof.
  revert n. induction text as [|c rest IH]; intros n; [done|].
  cbn [array_from fold_left].
  assert (count_blocked now n (VString (String c EmptyString)) = n) as ->
    by (unfold count_blocked; by rewrite andb_false_r).
  apply IH.
Qed.

(** C10: whatever the store holds, [getRateLimitStats] reports
    [blockedCount = 0]: its loop ranges over the characters of the source
    text of [store.get], none of which is an object; [totalKeys] is the
    size of the store, which is left unchanged. *)
Theorem getRateLimitStats_blockedCount_zero get_source now (st : Store) :
  getRateLimitStats get_source now st =
  ({| totalKeys := size st; blockedCount := 0 |}, st).
Proof.
  unfold getRateLimitStats, bind, store_size, ret. simpl.
  by rewrite count_blocked_strings.
Qed.

(** The same on a store that holds an actively blocked identifier. *)
Example getRateLimitStats_misses_active_block :
  let st : Store :=
    {[ "client" := {| timestamps := [0]; blocked := true;
                      blockUntil := Some (Int 60000) |} ]} in
  is_blocked 10 (log_of st "client") = true ∧
  blockedCount (getRateLimitStats "get(key) { return this.store.get(key); }"
                  10 st).1 = 0%nat.
Proof. split; vm_compute; reflexivity. Qed.

(** * Further properties of the limiter *)

(** ** Single calls *)

(** A call for one identifier does not read or write the log of
    another. *)
Lemma log_of_write_back_other identifier other written (st : Store) :
  identifier ≠ other →
  log_of (write_back identifier written st) other = log_of st other.
Proof. intros Hne. unfold log_of. by rewrite write_back_other. Qed.

Lemma write_back_commute id1 id2 w1 w2 (st : Store) :
  id1 ≠ id2 →
  write_back id2 w2 (write_back id1 w1 st) =
  write_back id1 w1 (write_back id2 w2 st).
Proof.
  intros Hne. destruct w1 as [l1|], w2 as [l2|]; simpl; try done.
  apply map_eq. intros k. rewrite !lookup_insert.
  repeat case_decide; congruence.
Qed.

(** X1: calls for two different identifiers do not see each other: each
    gets the result it would get alone, and the store they leave is the
    same in either order. *)
Theorem checkRateLimit_independent id1 id2 c1 c2 n1 n2 (st : Store) :
  id1 ≠ id2 →
  (checkRateLimit id2 c2 n2 (checkRateLimit id1 c1 n1 st).2).1 =
    (checkRateLimit id2 c2 n2 st).1 ∧
  (checkRateLimit id1 c1 n1 (checkRateLimit id2 c2 n2 st).2).1 =
    (checkRateLimit id1 c1 n1 st).1 ∧
  (checkRateLimit id2 c2 n2 (checkRateLimit id1 c1 n1 st).2).2 =
    (checkRateLimit id1 c1 n1 (checkRateLimit id2 c2 n2 st).2).2.
Proof.
  intros Hne. rewrite !checkRateLimit_check_log. cbn [fst snd].
  rewrite !log_of_write_back_other by done.
  split; [done|]. split; [done|]. by apply write_back_commute.
Qed.

Lemma checkRateLimit_independent_witness :
  "alice" ≠ "bob" ∧
  (checkRateLimit "bob" strict 7 (checkRateLimit "alice" tight 5 ∅).2).1 =
    (checkRateLimit "bob" strict 7 ∅).1 ∧
  (checkRateLimit "alice" tight 5 (checkRateLimit "bob" strict 7 ∅).2).1 =
    (checkRateLimit "alice" tight 5 ∅).1 ∧
  (checkRateLimit "bob" strict 7 (checkRateLimit "alice" tight 5 ∅).2).2 =
    (checkRateLimit "alice" tight 5 (checkRateLimit "bob" strict 7 ∅).2).2.
Proof.
  assert ("alice" ≠ "bob") as Hne by discriminate.
  split; [exact Hne|].
  exact (checkRateLimit_independent "alice" "bob" tight strict 5 7 ∅ Hne).
Defined.

Lemma in_window_head_future now window (ts : list Z) t :
  head (in_window now window ts) = Some t → now < t + window.
Proof.
  intros Hhead.
  assert (t ∈ in_window now window ts) as Hin.
  { destruct (in_window now window ts); [done|].
    injection Hhead as ->. apply elem_of_cons. by left. }
  apply list_elem_of_filter in Hin as [Hfresh _]. lia.
Qed.

(** X2: under a policy with [maxRequests >= 1] and [windowMs >= 1] every
    result is well formed: [resetAt] is a number strictly after the clock
    reading of the call; an Allowed result has
    [0 <= remaining < maxRequests] and no message; a Denied result has
    [remaining = 0] and a non-empty message. *)
Theorem checkRateLimit_result_well_formed identifier config now (st : Store) :
  1 ≤ maxRequests config →
  1 ≤ windowMs config →
  let r := (checkRateLimit identifier config now st).1 in
  (∃ b, resetAt r = Int b ∧ now < b) ∧
  if allowed r
  then 0 ≤ remaining r < maxRequests config ∧ r_message r = None
  else remaining r = 0 ∧ ∃ c s, r_message r = Some (String c s).
Proof.
  intros Hmax Hwin r. subst r. rewrite checkRateLimit_check_log.
  cbn [fst]. unfold check_log.
  assert (∃ c s, denial_message (message config) = String c s) as Hmsg.
  { unfold denial_message, default_denial.
    destruct (message config) as [[|c s]|]; eauto. }
  destruct Hmsg as (c & s & Hmsg).
  destruct (active_block now (log_of st identifier)) as [until|] eqn:Hblock.
  - apply active_block_Some in Hblock as (_ & _ & b & -> & _ & Hlt).
    cbn. split; [by exists b|]. split; [done|]. exists c, s. by rewrite Hmsg.
  - destruct (Z.leb_spec (maxRequests config)
      (Z.of_nat (length (in_window now (windowMs config)
        (timestamps (log_of st identifier)))))) as [Hfull|Hroom]; cbn.
    + destruct (in_window now (windowMs config)
        (timestamps (log_of st identifier))) as [|t kept] eqn:Hkept;
        [simpl in Hfull; lia|].
      split; [|split; [done|exists c, s; by rewrite Hmsg]].
      exists (t + windowMs config). split; [done|].
      apply (in_window_head_future now _ (timestamps (log_of st identifier))).
      by rewrite Hkept.
    + rewrite length_app. cbn [length]. split; [|split; [lia|done]].
      destruct (in_window now (windowMs config)
        (timestamps (log_of st identifier))) as [|t kept] eqn:Hkept.
      * exists (now + windowMs config). split; [done|lia].
      * exists (t + windowMs config). split; [done|].
        apply (in_window_head_future now _ (timestamps (log_of st identifier))).
        by rewrite Hkept.
Qed.

Lemma checkRateLimit_result_well_formed_witness :
  1 ≤ maxRequests DEFAULT_RATE_LIMITS_upload ∧
  1 ≤ windowMs DEFAULT_RATE_LIMITS_upload ∧
  let r := (checkRateLimit "client" DEFAULT_RATE_LIMITS_upload 5 one_request).1 in
  (∃ b, resetAt r = Int b ∧ 5 < b) ∧
  if allowed r
  then 0 ≤ remaining r < maxRequests DEFAULT_RATE_LIMITS_upload ∧
       r_message r = None
  else remaining r = 0 ∧ ∃ c s, r_message r = Some (String c s).
Proof.
  assert (1 ≤ maxRequests DEFAULT_RATE_LIMITS_upload) as Hmax by (simpl; lia).
  assert (1 ≤ windowMs DEFAULT_RATE_LIMITS_upload) as Hwin by (simpl; lia).
  split; [exact Hmax|]. split; [exact Hwin|].
  exact (checkRateLimit_result_well_formed "client"
           DEFAULT_RATE_LIMITS_upload 5 one_request Hmax Hwin).
Defined.

(** ** First use, reset and clear *)

(** What a call on a fresh log returns and writes. *)
Lemma check_log_fresh config now :
  1 ≤ maxRequests config →
  check_log config now fresh_log =
  ({| allowed := true; remaining := maxRequests config - 1;
      resetAt := Int (now + windowMs config); r_message := None |},
   Some {| timestamps := [now]; blocked := false; blockUntil := None |}).
Proof.
  intros Hmax. unfold check_log. cbn.
  change (Z.of_nat 0) with 0. change (Z.of_nat 1) with 1.
  destruct (Z.leb_spec (maxRequests config) 0); [lia|done].
Qed.

(** X3: the first call for an identifier the store does not know is
    admitted under any policy with [maxRequests >= 1], with
    [remaining = maxRequests - 1] and [resetAt = now + windowMs]; it creates
    the entry, with the one timestamp [now], and the store grows by that one
    key. *)
Theorem first_call_admitted identifier config now (st : Store) :
  1 ≤ maxRequests config →
  st !! identifier = None →
  checkRateLimit identifier config now st =
    ({| allowed := true; remaining := maxRequests config - 1;
        resetAt := Int (now + windowMs config); r_message := None |},
     <[identifier := {| timestamps := [now]; blocked := false;
                        blockUntil := None |}]> st) ∧
  size (checkRateLimit identifier config now st).2 = S (size st).
Proof.
  intros Hmax Hnew.
  assert (checkRateLimit identifier config now st =
    ({| allowed := true; remaining := maxRequests config - 1;
        resetAt := Int (now + windowMs config); r_message := None |},
     <[identifier := {| timestamps := [now]; blocked := false;
                        blockUntil := None |}]> st)) as Hcall.
  { rewrite checkRateLimit_check_log, (log_of_None st identifier Hnew).
    by rewrite check_log_fresh. }
  split; [exact Hcall|]. rewrite Hcall. cbn [snd].
  by apply map_size_insert_None.
Qed.

Lemma first_call_admitted_witness :
  1 ≤ maxRequests DEFAULT_RATE_LIMITS_ocr ∧
  one_request !! "visitor" = None ∧
  checkRateLimit "visitor" DEFAULT_RATE_LIMITS_ocr 1000 one_request =
    ({| allowed := true; remaining := maxRequests DEFAULT_RATE_LIMITS_ocr - 1;
        resetAt := Int (1000 + windowMs DEFAULT_RATE_LIMITS_ocr);
        r_message := None |},
     <["visitor" := {| timestamps := [1000]; blocked := false;
                       blockUntil := None |}]> one_request) ∧
  size (checkRateLimit "visitor" DEFAULT_RATE_LIMITS_ocr 1000 one_request).2 =
    S (size one_request).
Proof.
  assert (1 ≤ maxRequests DEFAULT_RATE_LIMITS_ocr) as Hmax by (simpl; lia).
  assert (one_request !! "visitor" = None) as Hnew by reflexivity.
  split; [exact Hmax|]. split; [exact Hnew|].
  exact (first_call_admitted "visitor" DEFAULT_RATE_LIMITS_ocr 1000
           one_request Hmax Hnew).
Defined.

(** X4: [resetRateLimit] erases the history of its identifier, whatever it
    was (latched or not, known or not), and touches no other identifier:
    the next call for it under a policy with [maxRequests >= 1] is admitted
    with [remaining = maxRequests - 1] and [resetAt = now + windowMs], and
    leaves the log with the single timestamp [now]. *)
Theorem reset_then_check identifier config now (st : Store) :
  1 ≤ maxRequests config →
  let st1 := (resetRateLimit identifier st).2 in
  (∀ other, identifier ≠ other → st1 !! other = st !! other) ∧
  checkRateLimit identifier config now st1 =
    ({| allowed := true; remaining := maxRequests config - 1;
        resetAt := Int (now + windowMs config); r_message := None |},
     <[identifier := {| timestamps := [now]; blocked := false;
                        blockUntil := None |}]> st).
Proof.
  intros Hmax st1. subst st1. unfold resetRateLimit, store_set. cbn [snd].
  split.
  - intros other Hne. by rewrite lookup_insert_ne.
  - rewrite checkRateLimit_check_log. unfold log_of.
    rewrite lookup_insert_eq. cbn [default from_option id].
    rewrite check_log_fresh by done. cbn [fst snd write_back].
    by rewrite insert_insert_eq.
Qed.

Lemma reset_then_check_witness :
  1 ≤ maxRequests tight ∧
  let st : Store :=
    {[ "client" := {| timestamps := [0; 10]; blocked := true;
                      blockUntil := Some (Int 1000) |} ]} in
  let st1 := (resetRateLimit "client" st).2 in
  (∀ other, "client" ≠ other → st1 !! other = st !! other) ∧
  checkRateLimit "client" tight 20 st1 =
    ({| allowed := true; remaining := maxRequests tight - 1;
        resetAt := Int (20 + windowMs tight); r_message := None |},
     <["client" := {| timestamps := [20]; blocked := false;
                      blockUntil := None |}]> st).
Proof.
  assert (1 ≤ maxRequests tight) as Hmax by (simpl; lia).
  split; [exact Hmax|]. intros st.
  exact (reset_then_check "client" tight 20 st Hmax).
Defined.

(** X5: [clearAllRateLimits] forgets every identifier, also the latched
    ones: afterwards the store is empty, [getRateLimitStats] counts no key,
    every identifier has the clean-slate status, and a call under a policy
    with [maxRequests >= 1] is admitted as a first call. *)
Theorem clearAll_forgets identifier config now get_source (st : Store) :
  1 ≤ maxRequests config →
  let st1 := (clearAllRateLimits st).2 in
  st1 = ∅ ∧
  totalKeys (getRateLimitStats get_source now st1).1 = 0%nat ∧
  (getRateLimitStatus identifier config now st1).1 =
    {| current := 0; max := maxRequests config;
       s_remaining := maxRequests config;
       s_resetAt := now + windowMs config |} ∧
  (checkRateLimit identifier config now st1).1 =
    {| allowed := true; remaining := maxRequests config - 1;
       resetAt := Int (now + windowMs config); r_message := None |}.
Proof.
  intros Hmax st1. subst st1. unfold clearAllRateLimits, store_clear.
  cbn [snd]. split; [done|]. split; [|split].
  - unfold getRateLimitStats, bind, store_size, ret. cbn [fst totalKeys].
    apply map_size_empty.
  - unfold getRateLimitStatus, bind, store_get, ret.
    by rewrite lookup_empty.
  - rewrite checkRateLimit_check_log.
    rewrite (log_of_None ∅ identifier) by apply lookup_empty.
    by rewrite check_log_fresh.
Qed.

Lemma clearAll_forgets_witness :
  1 ≤ maxRequests tight ∧
  let st1 := (clearAllRateLimits idle_blocked_store).2 in
  st1 = ∅ ∧
  totalKeys (getRateLimitStats "get(key) {}" 50 st1).1 = 0%nat ∧
  (getRateLimitStatus "client" tight 50 st1).1 =
    {| current := 0; max := maxRequests tight;
       s_remaining := maxRequests tight;
       s_resetAt := 50 + windowMs tight |} ∧
  (checkRateLimit "client" tight 50 st1).1 =
    {| allowed := true; remaining := maxRequests tight - 1;
       resetAt := Int (50 + windowMs tight); r_message := None |}.
Proof.
  assert (1 ≤ maxRequests tight) as Hmax by (simpl; lia).
  split; [exact Hmax|].
  exact (clearAll_forgets "client" tight 50 "get(key) {}" idle_blocked_store
           Hmax).
Defined.

(** ** More on the cleanup sweep *)

Lemma cleanup_lookup_any now (st : Store) key :
  (cleanup now st).2 !! key =
  match st !! key with
  | Some log => if sweepable now log then None else Some log
  | None => None
  end.
Proof.
  destruct (st !! key) as [log|] eqn:Hlog.
  - by apply cleanup_lookup.
  - unfold cleanup. cbn [snd]. by apply sweep_gone.
Qed.

(** X6: the sweep only removes entries: what it leaves is a part of the
    store it found (no entry added, none altered), so the store does not
    grow. *)
Theorem cleanup_only_removes now (st : Store) :
  (cleanup now st).2 ⊆ st ∧ (size (cleanup now st).2 ≤ size st)%nat.
Proof.
  assert ((cleanup now st).2 ⊆ st) as Hsub.
  { apply map_subseteq_spec. intros key log.
    rewrite cleanup_lookup_any. destruct (st !! key) as [log'|]; [|done].
    by destruct (sweepable now log'). }
  split; [exact Hsub|]. by apply map_subseteq_size.
Qed.

(** X7: a second sweep at the same clock reading removes nothing
    more. *)
Theorem cleanup_idempotent now (st : Store) :
  (cleanup now (cleanup now st).2).2 = (cleanup now st).2.
Proof.
  apply map_eq. intros key. rewrite (cleanup_lookup_any now (cleanup now st).2).
  rewrite cleanup_lookup_any. destruct (st !! key) as [log|]; [|done].
  destruct (sweepable now log) eqn:Hs; [done|]. by rewrite Hs.
Qed.

(** A block that is over stays over. *)
Lemma active_block_expired now later log :
  active_block now log = None → now ≤ later → active_block later log = None.
Proof.
  intros Hover Hle. destruct (active_block later log) as [b|] eqn:Hb; [|done].
  apply active_block_Some in Hb as (Hblocked & Huntil & z & -> & Hz & Hlt).
  assert (active_block now log = Some (Int z)) as Hstill; [|congruence].
  apply active_block_Some. repeat split; [done..|].
  exists z. repeat split; [done|lia].
Qed.

(** For a window of at most one hour, a log the sweep may remove is
    decided like a fresh one. *)
Lemma check_log_sweepable config now later log :
  windowMs config ≤ 60 * 60 * 1000 → now ≤ later →
  sweepable now log = true →
  (check_log config later log).1 = (check_log config later fresh_log).1.
Proof.
  intros Hwin Hle Hsweep. unfold sweepable in Hsweep.
  apply andb_true_iff in Hsweep as [Hidle Hfree].
  apply negb_true_iff in Hidle, Hfree.
  apply has_recent_requests_false in Hidle.
  assert (active_block later log = None) as Hover.
  { apply (active_block_expired now); [|done].
    unfold is_blocked in Hfree. by destruct (active_block now log). }
  assert (in_window later (windowMs config) (timestamps log) = []) as Hkept.
  { unfold in_window. unfold idle in Hidle.
    induction (timestamps log) as [|t ts IH]; [done|].
    rewrite filter_cons_False.
    - apply IH. intros t' Hin. apply Hidle. apply elem_of_cons. by right.
    - assert (¬ now - 3600000 < t) by (apply Hidle, elem_of_cons; by left).
      lia. }
  unfold check_log. rewrite Hover, Hkept. cbn.
  by destruct (maxRequests config <=? Z.of_nat 0).
Qed.

(** X8: for a policy whose window is at most the retention horizon of one
    hour, the sweep never changes a decision: a call at a clock reading not
    before the sweep gets the same result whether or not the sweep ran. *)
Theorem cleanup_transparent identifier config now later (st : Store) :
  windowMs config ≤ 60 * 60 * 1000 →
  now ≤ later →
  (checkRateLimit identifier config later (cleanup now st).2).1 =
  (checkRateLimit identifier config later st).1.
Proof.
  intros Hwin Hle. rewrite !checkRateLimit_check_log. cbn [fst].
  unfold log_of. rewrite cleanup_lookup_any.
  destruct (st !! identifier) as [log|]; [|done].
  destruct (sweepable now log) eqn:Hs; [|done]. cbn.
  symmetry. by apply (check_log_sweepable config now).
Qed.

Lemma cleanup_transparent_witness :
  windowMs DEFAULT_RATE_LIMITS_global ≤ 60 * 60 * 1000 ∧
  4000000 ≤ 4000001 ∧
  (cleanup 4000000 long_idle_store).2 !! "client" = None ∧
  (checkRateLimit "client" DEFAULT_RATE_LIMITS_global 4000001
     (cleanup 4000000 long_idle_store).2).1 =
  (checkRateLimit "client" DEFAULT_RATE_LIMITS_global 4000001
     long_idle_store).1.
Proof.
  assert (windowMs DEFAULT_RATE_LIMITS_global ≤ 60 * 60 * 1000) as Hwin
    by (simpl; lia).
  assert (4000000 ≤ 4000001) as Hle by lia.
  split; [exact Hwin|]. split; [exact Hle|]. split; [reflexivity|].
  exact (cleanup_transparent "client" DEFAULT_RATE_LIMITS_global
           4000000 4000001 long_idle_store Hwin Hle).
Defined.

(** ** Runs of calls with a non-decreasing clock *)

Lemma last_cons_default {A} (l : list A) (a d : A) :
  List.last (a :: l) d = List.last l a.
Proof.
  revert a d. induction l as [|b l IH]; intros a d; [done|].
  change (List.last (a :: b :: l) d) with (List.last (b :: l) d).
  by rewrite !IH.
Qed.

Lemma at_times_readings config times : (at_times config times).*2 = times.
Proof. unfold at_times. induction times as [|t ts IH]; [done|]. cbn. by f_equal. Qed.

Lemma sorted_with_start (times : list Z) :
  Sorted Z.le times → ∃ prev, StronglySorted Z.le (prev :: times).
Proof.
  intros Hsorted. apply Sorted_StronglySorted in Hsorted; [|apply _].
  destruct times as [|t rest].
  - exists 0. repeat constructor.
  - exists t. constructor; [done|].
    apply Forall_cons. split; [lia|].
    by apply StronglySorted_cons in Hsorted as [? _].
Qed.

Section run_invariant.
Context (holds : Z → RequestLog → Prop) (admissible : RateLimitConfig → Prop).
Hypothesis kept_by_call : ∀ config prev now log,
  admissible config → holds prev log → prev ≤ now →
  holds now (default log (check_log config now log).2).

(** What every call keeps, a run keeps: it holds at the last clock
    reading of the run. *)
Lemma run_log_keeps calls : ∀ log prev,
  holds prev log →
  Forall (λ call : RateLimitConfig * Z, admissible call.1) calls →
  StronglySorted Z.le (prev :: calls.*2) →
  holds (List.last (calls.*2) prev) (run_log calls log).2.
Proof.
  induction calls as [|[config now] rest IH]; intros log prev Hlog Hadm Htimes;
    [done|].
  cbn [fmap list_fmap snd run_log]. rewrite last_cons_default.
  apply Forall_cons in Hadm as [Hconfig Hadm].
  cbn [fmap list_fmap snd] in Htimes.
  apply StronglySorted_cons in Htimes as [Hle Htimes].
  apply Forall_cons in Hle as [Hle _].
  pose proof (kept_by_call config prev now log Hconfig Hlog Hle) as Hstep.
  destruct (check_log config now log) as [r written]. cbn [snd fst] in *.
  specialize (IH (default log written) now Hstep Hadm Htimes).
  by destruct (run_log rest (default log written)).
Qed.
End run_invariant.

(** Oldest first, and nothing later than the clock. *)
Lemma check_log_ordered config prev now log :
  True →
  StronglySorted Z.le (timestamps log) ∧ Forall (λ t, t ≤ prev) (timestamps log) →
  prev ≤ now →
  StronglySorted Z.le (timestamps (default log (check_log config now log).2)) ∧
  Forall (λ t, t ≤ now) (timestamps (default log (check_log config now log).2)).
Proof.
  intros _ [Hsorted Hpast] Hle. unfold check_log.
  pose proof (in_window_sorted config now _ Hsorted) as Hsorted'.
  pose proof (in_window_past config prev now _ Hle Hpast) as Hpast'.
  destruct (active_block now log).
  - simpl. split; [done|].
    eapply Forall_impl; [exact Hpast|]. simpl. intros t Ht. lia.
  - case_match; simpl; [done|]. split.
    + apply StronglySorted_app_2; [|done|repeat constructor].
      intros t t' Hin ->%list_elem_of_singleton.
      by apply (proj1 (Forall_forall _ _) Hpast').
    + apply Forall_app. split; [done|]. by apply Forall_singleton.
Qed.

(** X9: whatever policies the calls for an identifier use, as long as the
    clock does not go backwards the stored timestamps are in non-decreasing
    order and none is later than the last clock reading; so [timestamps[0]],
    which [blockUntil] and [resetAt] are computed from, is the oldest. *)
Theorem timestamps_oldest_first identifier calls config now (st : Store) :
  timestamps (log_of st identifier) = [] →
  Sorted Z.le ((calls ++ [(config, now)]).*2) →
  let ts := timestamps
    (log_of (run_checks identifier (calls ++ [(config, now)]) st).2
       identifier) in
  Sorted Z.le ts ∧ Forall (λ t, t ≤ now) ts ∧
  ∀ oldest, head ts = Some oldest → Forall (Z.le oldest) ts.
Proof.
  intros Hempty Htimes ts. subst ts.
  destruct (run_checks_run_log identifier (calls ++ [(config, now)]) st)
    as (_ & -> & _).
  destruct (sorted_with_start _ Htimes) as [prev Hprev].
  pose proof (run_log_keeps
    (λ now log, StronglySorted Z.le (timestamps log) ∧
                Forall (λ t, t ≤ now) (timestamps log))
    (λ _, True) check_log_ordered (calls ++ [(config, now)])
    (log_of st identifier) prev) as Hrun.
  rewrite fmap_app in Hrun. cbn [fmap list_fmap snd] in Hrun.
  rewrite List.last_last in Hrun.
  destruct Hrun as [Hsorted Hpast].
  - rewrite Hempty. split; constructor.
  - apply Forall_forall. done.
  - by rewrite fmap_app in Hprev.
  - split; [by apply StronglySorted_Sorted|]. split; [done|].
    intros oldest Hhead.
    destruct (timestamps (run_log (calls ++ [(config, now)])
      (log_of st identifier)).2) as [|t ts]; [done|].
    injection Hhead as ->. apply StronglySorted_cons in Hsorted as [Hmin _].
    apply Forall_cons. split; [lia|done].
Qed.

Lemma timestamps_oldest_first_witness :
  timestamps (log_of ∅ "client") = [] ∧
  Sorted Z.le (([(roomy, 0); (tight, 10); (lenient, 1500)] ++
                [(strict, 1500)]).*2) ∧
  let ts := timestamps
    (log_of (run_checks "client"
               ([(roomy, 0); (tight, 10); (lenient, 1500)] ++ [(strict, 1500)])
               ∅).2 "client") in
  Sorted Z.le ts ∧ Forall (λ t, t ≤ 1500) ts ∧
  ∀ oldest, head ts = Some oldest → Forall (Z.le oldest) ts.
Proof.
  assert (timestamps (log_of ∅ "client") = []) as Hempty by reflexivity.
  assert (Sorted Z.le (([(roomy, 0); (tight, 10); (lenient, 1500)] ++
                        [(strict, 1500)]).*2)) as Htimes
    by (cbn; repeat constructor; lia).
  split; [exact Hempty|]. split; [exact Htimes|].
  exact (timestamps_oldest_first "client"
           [(roomy, 0); (tight, 10); (lenient, 1500)] strict 1500 ∅
           Hempty Htimes).
Defined.

(** ** The quota over every window *)

Lemma in_window_later prev now window (ts : list Z) :
  prev ≤ now →
  in_window now window (in_window prev window ts) = in_window now window ts.
Proof.
  intros Hle. unfold in_window. apply list_filter_filter_l.
  intros t Ht. lia.
Qed.

Lemma length_filter_impl {A} (P Q : A → Prop)
    `{!∀ x, Decision (P x)} `{!∀ x, Decision (Q x)} (l : list A) :
  (∀ x, P x → Q x) → (length (filter P l) ≤ length (filter Q l))%nat.
Proof.
  intros Himpl. induction l as [|x l IH]; [done|].
  destruct (decide (P x)) as [HP|HP].
  - rewrite (filter_cons_True P) by done.
    rewrite (filter_cons_True Q) by auto. simpl. lia.
  - rewrite (filter_cons_False P) by done.
    destruct (decide (Q x)).
    + rewrite (filter_cons_True Q) by done. simpl. lia.
    + by rewrite (filter_cons_False Q).
Qed.

Section sliding.
Context (config : RateLimitConfig).

Lemma tracks_window now log granted :
  in_window now (windowMs config) (timestamps log) =
    in_window now (windowMs config) granted →
  Z.of_nat (length (timestamps log)) ≤ maxRequests config →
  ∀ stop, now ≤ stop →
    Z.of_nat (length (filter (in_span (windowMs config) stop) granted))
    ≤ maxRequests config.
Proof.
  intros Hagree Hlen stop Hstop.
  pose proof (length_filter_impl (in_span (windowMs config) stop)
    (λ t, now - t < windowMs config) granted) as Hspan.
  fold (in_window now (windowMs config) granted) in Hspan.
  rewrite <- Hagree in Hspan.
  pose proof (length_filter (λ t, now - t < windowMs config) (timestamps log))
    as Hkept.
  fold (in_window now (windowMs config) (timestamps log)) in Hkept.
  assert (∀ t, in_span (windowMs config) stop t → now - t < windowMs config)
    as Himpl by (unfold in_span; intros t Ht; lia).
  specialize (Hspan Himpl). lia.
Qed.

(** One call keeps the agreement between the log and the admitted
    readings. *)
Lemma check_log_tracks prev now log granted :
  tracks config prev log granted → prev ≤ now →
  tracks config now (default log (check_log config now log).2)
    (if allowed (check_log config now log).1
     then granted ++ [now] else granted).
Proof.
  intros (Hagree & Hlen & Hquota) Hle.
  assert (in_window now (windowMs config) (timestamps log) =
          in_window now (windowMs config) granted) as Hnow.
  { rewrite <- (in_window_later prev now _ (timestamps log)) by done.
    rewrite Hagree. by apply in_window_later. }
  pose proof (length_filter (λ t, now - t < windowMs config) (timestamps log))
    as Hkept.
  fold (in_window now (windowMs config) (timestamps log)) in Hkept.
  unfold check_log. destruct (active_block now log).
  - simpl. by repeat split.
  - destruct (Z.leb_spec (maxRequests config)
      (Z.of_nat (length (in_window now (windowMs config) (timestamps log)))))
      as [Hfull|Hroom]; simpl.
    + repeat split; cbn [timestamps]; [|lia|done].
      rewrite <- Hnow. by apply in_window_later.
    + assert (in_window now (windowMs config)
                (in_window now (windowMs config) (timestamps log) ++ [now]) =
              in_window now (windowMs config) (granted ++ [now])) as Hagree'.
      { unfold in_window at 1 3. rewrite !filter_app.
        fold (in_window now (windowMs config)
                (in_window now (windowMs config) (timestamps log))).
        fold (in_window now (windowMs config) granted).
        rewrite in_window_later by done. by rewrite Hnow. }
      assert (Z.of_nat (length
                (in_window now (windowMs config) (timestamps log) ++ [now]))
              ≤ maxRequests config) as Hlen'.
      { rewrite length_app. simpl. lia. }
      repeat split; cbn [timestamps]; [done..|].
      intros stop. destruct (Z.le_gt_cases now stop) as [Hstop|Hstop].
      * by apply (tracks_window now
          {| timestamps := in_window now (windowMs config) (timestamps log)
                           ++ [now];
             blocked := false; blockUntil := blockUntil log |}).
      * rewrite filter_app, length_app.
        rewrite (filter_cons_False _ now []);
          [|unfold in_span; lia].
        specialize (Hquota stop). simpl. lia.
Qed.

Lemma run_log_tracks times : ∀ log granted prev,
  tracks config prev log granted →
  StronglySorted Z.le (prev :: times) →
  ∀ stop,
    Z.of_nat (length (filter (in_span (windowMs config) stop)
      (granted ++ admitted times (run_log (at_times config times) log).1)))
    ≤ maxRequests config.
Proof.
  induction times as [|now rest IH]; intros log granted prev Hlog Htimes stop.
  - cbn. rewrite app_nil_r. by destruct Hlog as (_ & _ & Hquota).
  - apply StronglySorted_cons in Htimes as [Hle Htimes].
    apply Forall_cons in Hle as [Hle _].
    pose proof (check_log_tracks prev now log granted Hlog Hle) as Hstep.
    cbn [at_times fmap list_fmap run_log]. fold (at_times config rest).
    destruct (check_log config now log) as [r written]. cbn [fst snd] in Hstep.
    specialize (IH (default log written) _ now Hstep Htimes stop).
    destruct (run_log (at_times config rest) (default log written))
      as [rs final].
    cbn [fst admitted] in *. destruct (allowed r); [|done].
    by rewrite <- app_assoc in IH.
Qed.
End sliding.

(** X10: the sliding-window guarantee.  When all calls for an identifier
    use one policy with [maxRequests >= 0], start from an empty log and have
    non-decreasing clock readings, then in every interval
    [(stop - windowMs, stop]], wherever it lies, at most [maxRequests] calls
    have been Allowed. *)
Theorem sliding_window_quota identifier config times stop (st : Store) :
  0 ≤ maxRequests config →
  timestamps (log_of st identifier) = [] →
  Sorted Z.le times →
  Z.of_nat
    (length
       (filter (in_span (windowMs config) stop)
          (admitted times
             (run_checks identifier (at_times config times) st).1)))
  ≤ maxRequests config.
Proof.
  intros Hmax Hempty Htimes.
  destruct (run_checks_run_log identifier (at_times config times) st)
    as (-> & _ & _).
  destruct (sorted_with_start _ Htimes) as [prev Hprev].
  apply (run_log_tracks config times (log_of st identifier) [] prev);
    [|done].
  unfold tracks. rewrite Hempty. cbn. repeat split; [lia|]. intros _. lia.
Qed.

Lemma sliding_window_quota_witness :
  0 ≤ maxRequests tight ∧
  timestamps (log_of ∅ "client") = [] ∧
  Sorted Z.le [0; 10; 20; 1005; 1010; 1015; 2006] ∧
  Z.of_nat
    (length
       (filter (in_span (windowMs tight) 1500)
          (admitted [0; 10; 20; 1005; 1010; 1015; 2006]
             (run_checks "client"
                (at_times tight [0; 10; 20; 1005; 1010; 1015; 2006]) ∅).1)))
  ≤ maxRequests tight.
Proof.
  assert (0 ≤ maxRequests tight) as Hmax by (simpl; lia).
  assert (timestamps (log_of ∅ "client") = []) as Hempty by reflexivity.
  assert (Sorted Z.le [0; 10; 20; 1005; 1010; 1015; 2006]) as Htimes
    by (repeat constructor; lia).
  split; [exact Hmax|]. split; [exact Hempty|]. split; [exact Htimes|].
  exact (sliding_window_quota "client" tight
           [0; 10; 20; 1005; 1010; 1015; 2006] 1500 ∅ Hmax Hempty Htimes).
Defined.

(** In that run the readings 0, 10, 1005, 1010 and 2006 are the admitted
    ones. *)
Example sliding_run_admitted :
  admitted [0; 10; 20; 1005; 1010; 1015; 2006]
    (run_checks "client"
       (at_times tight [0; 10; 20; 1005; 1010; 1015; 2006]) ∅).1 =
  [0; 10; 1005; 1010; 2006].
Proof. vm_compute. reflexivity. Qed.

(** ** Retrying, and asking for the status first *)

Lemma last_reading_le (times : list Z) : ∀ prev now,
  StronglySorted Z.le (prev :: times ++ [now]) → List.last times prev ≤ now.
Proof.
  induction times as [|t rest IH]; intros prev now Hsorted.
  - apply StronglySorted_cons in Hsorted as [Hle _].
    by apply Forall_cons in Hle as [? _].
  - rewrite last_cons_default. apply IH.
    by apply StronglySorted_cons in Hsorted as [_ ?].
Qed.

Section steady_runs.
Context (config : RateLimitConfig).
Hypothesis quota_positive : 1 ≤ maxRequests config.
Hypothesis window_positive : 1 ≤ windowMs config.

Lemma steady_fresh now : steady config now fresh_log.
Proof.
  split; [apply settled_fresh|]. simpl. split; [lia|done].
Qed.

Lemma check_log_steady used prev now log :
  used = config → steady config prev log → prev ≤ now →
  steady config now (default log (check_log used now log).2).
Proof.
  intros -> (Hsettled & Hlen & Hfull) Hle.
  split; [by apply (check_log_settled config quota_positive window_positive prev)|].
  split; [by apply check_log_length|].
  unfold check_log. destruct (active_block now log); [done|].
  destruct (Z.leb_spec (maxRequests config)
    (Z.of_nat (length (in_window now (windowMs config) (timestamps log)))));
    simpl; done.
Qed.

(** The log a run under [config] from a fresh log leaves is steady at the
    last reading, hence ready for a call at any reading [now] that is not
    earlier. *)
Lemma run_steady identifier times now (st : Store) :
  log_of st identifier = fresh_log →
  Sorted Z.le (times ++ [now]) →
  ∃ prev, prev ≤ now ∧
    steady config prev
      (log_of (run_checks identifier (at_times config times) st).2 identifier).
Proof.
  intros Hfresh Htimes.
  destruct (run_checks_run_log identifier (at_times config times) st)
    as (_ & -> & _).
  destruct (sorted_with_start _ Htimes) as [start Hstart].
  exists (List.last times start). split; [by apply last_reading_le|].
  rewrite <- (at_times_readings config times) at 1.
  apply (run_log_keeps (steady config) (λ used, used = config)).
  - intros used prev now' log. apply check_log_steady.
  - rewrite Hfresh. apply steady_fresh.
  - unfold at_times. apply Forall_fmap, Forall_forall. done.
  - rewrite at_times_readings.
    apply StronglySorted_cons in Hstart as [Hle Hsorted].
    apply Forall_app in Hle as [Hle _].
    apply StronglySorted_app_1_l in Hsorted. by constructor.
Qed.

(** At and after [blockUntil] a latch anchored at the oldest timestamp no
    longer holds, and the oldest timestamp is purged. *)
Lemma check_log_at_expiry now log oldest :
  latched_on_oldest config log oldest →
  Z.of_nat (length (timestamps log)) ≤ maxRequests config →
  oldest + windowMs config ≤ now →
  allowed (check_log config now log).1 = true.
Proof.
  intros (Hblocked & Hhead & Huntil) Hlen Hafter. unfold check_log.
  assert (active_block now log = None) as ->.
  { unfold active_block. rewrite Hblocked, Huntil. simpl.
    destruct (Z.ltb_spec now (oldest + windowMs config)); [lia|].
    by rewrite andb_false_r. }
  assert (length (in_window now (windowMs config) (timestamps log)) <
          length (timestamps log))%nat as Hshorter.
  { apply (length_filter_lt _ _ oldest); [|lia].
    destruct (timestamps log); [done|]. injection Hhead as ->.
    apply elem_of_cons. by left. }
  by destruct (Z.leb_spec (maxRequests config)
    (Z.of_nat (length (in_window now (windowMs config) (timestamps log)))));
    [lia|].
Qed.

Lemma retry_admitted prev now later log b :
  steady config prev log → prev ≤ now →
  allowed (check_log config now log).1 = false →
  resetAt (check_log config now log).1 = Int b →
  b ≤ later →
  allowed (check_log config later
             (default log (check_log config now log).2)).1 = true.
Proof.
  intros Hlog Hle Hdenied Hreset Hlater.
  destruct (check_log_steady config prev now log eq_refl Hlog Hle)
    as ((_ & _ & _ & Hlatch) & Hlen & _).
  destruct (check_log_denied_latches config now log Hdenied)
    as [Hblocked Huntil].
  destruct (Hlatch Hblocked) as (oldest & Hhead & Huntil').
  rewrite Hreset in Huntil. rewrite Huntil in Huntil'.
  injection Huntil' as Hb.
  apply (check_log_at_expiry later _ oldest); [|done|lia].
  split; [done|]. split; [done|]. by rewrite Huntil, Hb.
Qed.

(** Latched or not, a call is admitted exactly when fewer than
    [maxRequests] stored timestamps are inside the window: while a latch
    anchored at the oldest timestamp holds, all of them are. *)
Lemma status_predicts prev now log :
  steady config prev log → prev ≤ now →
  allowed (check_log config now log).1 = true ↔
  Z.of_nat (length (in_window now (windowMs config) (timestamps log)))
  < maxRequests config.
Proof.
  intros ((Hsorted & _ & _ & Hlatch) & Hlen & Hfull) Hle. unfold check_log.
  destruct (active_block now log) as [until|] eqn:Hblock.
  - apply active_block_Some in Hblock
      as (Hblocked & Huntil & z & -> & _ & Hbefore).
    destruct (Hlatch Hblocked) as (oldest & Hhead & Huntil').
    rewrite Huntil in Huntil'. injection Huntil' as ->.
    rewrite in_window_all; [cbn; split; [done|]; specialize (Hfull Hblocked); lia|].
    destruct (timestamps log) as [|t ts]; [done|].
    injection Hhead as ->. apply StronglySorted_cons in Hsorted as [Hmin _].
    apply Forall_cons. split; [lia|].
    eapply Forall_impl; [exact Hmin|]. simpl. intros t Ht. lia.
  - destruct (Z.leb_spec (maxRequests config)
      (Z.of_nat (length (in_window now (windowMs config) (timestamps log)))));
      cbn; split; (done || lia).
Qed.
End steady_runs.

(** X11: retrying at [resetAt] works.  When all calls for an identifier
    use one policy with [maxRequests >= 1] and [windowMs >= 1], start from a
    fresh log and have non-decreasing clock readings, a call that is Denied
    with [resetAt = b] is followed by an admission at any clock reading from
    [b] on, [b] itself included. *)
Theorem retry_at_resetAt identifier config times now later b (st : Store) :
  1 ≤ maxRequests config →
  1 ≤ windowMs config →
  log_of st identifier = fresh_log →
  Sorted Z.le (times ++ [now]) →
  let st1 := (run_checks identifier (at_times config times) st).2 in
  allowed (checkRateLimit identifier config now st1).1 = false →
  resetAt (checkRateLimit identifier config now st1).1 = Int b →
  b ≤ later →
  allowed (checkRateLimit identifier config later
             (checkRateLimit identifier config now st1).2).1 = true.
Proof.
  intros Hmax Hwin Hfresh Htimes st1 Hdenied Hreset Hlater.
  destruct (run_steady config Hmax Hwin identifier times now st Hfresh Htimes)
    as (prev & Hle & Hsteady). fold st1 in Hsteady.
  rewrite !checkRateLimit_check_log in *. cbn [fst snd] in *.
  rewrite log_of_write_back.
  by apply (retry_admitted config Hmax Hwin prev now later _ b).
Qed.

Lemma retry_at_resetAt_witness :
  1 ≤ maxRequests tight ∧ 1 ≤ windowMs tight ∧
  log_of ∅ "client" = fresh_log ∧
  Sorted Z.le ([0; 10] ++ [20]) ∧
  let st1 := (run_checks "client" (at_times tight [0; 10]) ∅).2 in
  allowed (checkRateLimit "client" tight 20 st1).1 = false ∧
  resetAt (checkRateLimit "client" tight 20 st1).1 = Int 1000 ∧
  1000 ≤ 1000 ∧
  allowed (checkRateLimit "client" tight 1000
             (checkRateLimit "client" tight 20 st1).2).1 = true.
Proof.
  assert (1 ≤ maxRequests tight) as Hmax by (simpl; lia).
  assert (1 ≤ windowMs tight) as Hwin by (simpl; lia).
  assert (log_of ∅ "client" = fresh_log) as Hfresh by reflexivity.
  assert (Sorted Z.le ([0; 10] ++ [20])) as Htimes
    by (repeat constructor; lia).
  split; [exact Hmax|]. split; [exact Hwin|]. split; [exact Hfresh|].
  split; [exact Htimes|]. intros st1.
  assert (allowed (checkRateLimit "client" tight 20 st1).1 = false)
    as Hdenied by reflexivity.
  assert (resetAt (checkRateLimit "client" tight 20 st1).1 = Int 1000)
    as Hreset by reflexivity.
  assert (1000 ≤ 1000) as Hlater by lia.
  split; [exact Hdenied|]. split; [exact Hreset|]. split; [exact Hlater|].
  exact (retry_at_resetAt "client" tight [0; 10] 20 1000 1000 ∅
           Hmax Hwin Hfresh Htimes Hdenied Hreset Hlater).
Defined.

(** X12: the status predicts the decision.  When all calls for an
    identifier use one policy with [maxRequests >= 1] and [windowMs >= 1],
    start from a fresh log and have non-decreasing clock readings, then a
    call at a reading [now] that is not earlier is Allowed exactly when
    [getRateLimitStatus], asked at [now] just before, reports
    [remaining > 0]. *)
Theorem status_predicts_check identifier config times now (st : Store) :
  1 ≤ maxRequests config →
  1 ≤ windowMs config →
  log_of st identifier = fresh_log →
  Sorted Z.le (times ++ [now]) →
  let st1 := (run_checks identifier (at_times config times) st).2 in
  allowed (checkRateLimit identifier config now st1).1 = true ↔
  0 < s_remaining (getRateLimitStatus identifier config now st1).1.
Proof.
  intros Hmax Hwin Hfresh Htimes st1.
  destruct (run_steady config Hmax Hwin identifier times now st Hfresh Htimes)
    as (prev & Hle & Hsteady). fold st1 in Hsteady.
  rewrite checkRateLimit_check_log. cbn [fst].
  unfold getRateLimitStatus, bind, store_get, ret.
  destruct (st1 !! identifier) as [log|] eqn:Hlog.
  - rewrite (log_of_Some st1 identifier log Hlog) in *. cbn [fst s_remaining].
    rewrite (status_predicts config prev now log Hsteady Hle). lia.
  - rewrite (log_of_None st1 identifier Hlog). cbn [fst s_remaining].
    rewrite check_log_fresh by done. cbn. split; [lia|done].
Qed.

Lemma status_predicts_check_witness :
  1 ≤ maxRequests tight ∧ 1 ≤ windowMs tight ∧
  log_of ∅ "client" = fresh_log ∧
  Sorted Z.le ([0; 10; 20] ++ [500]) ∧
  let st1 := (run_checks "client" (at_times tight [0; 10; 20]) ∅).2 in
  (allowed (checkRateLimit "client" tight 500 st1).1 = true ↔
   0 < s_remaining (getRateLimitStatus "client" tight 500 st1).1).
Proof.
  assert (1 ≤ maxRequests tight) as Hmax by (simpl; lia).
  assert (1 ≤ windowMs tight) as Hwin by (simpl; lia).
  assert (log_of ∅ "client" = fresh_log) as Hfresh by reflexivity.
  assert (Sorted Z.le ([0; 10; 20] ++ [500])) as Htimes
    by (repeat constructor; lia).
  split; [exact Hmax|]. split; [exact Hwin|]. split; [exact Hfresh|].
  split; [exact Htimes|].
  exact (status_predicts_check "client" tight [0; 10; 20] 500 ∅
           Hmax Hwin Hfresh Htimes).
Defined.

(** ** Sessions of arbitrary calls *)

Section session_invariant.
Context (sound : RequestLog → Prop) (admissible : RateLimitConfig → Prop).
Hypothesis sound_fresh : sound fresh_log.
Hypothesis sound_check : ∀ config now log,
  admissible config → sound log →
  sound (default log (check_log config now log).2).

Lemma sound_log_of (st : Store) identifier :
  all_sound sound st → sound (log_of st identifier).
Proof.
  intros Hst. unfold log_of.
  destruct (st !! identifier) as [log|] eqn:Hlog; [by apply (Hst identifier)|done].
Qed.

Lemma checkRateLimit_sound identifier config now (st : Store) :
  admissible config → all_sound sound st →
  all_sound sound (checkRateLimit identifier config now st).2.
Proof.
  intros Hconfig Hst key log. rewrite checkRateLimit_check_log. cbn [snd].
  pose proof (sound_check config now (log_of st identifier) Hconfig
    (sound_log_of st identifier Hst)) as Hnew.
  destruct (check_log config now (log_of st identifier)).2 as [written|];
    cbn [write_back default] in *; [|apply Hst].
  rewrite lookup_insert. case_decide; [|apply Hst].
  by intros [= <-].
Qed.

Lemma checkMultipleRateLimits_sound identifier configs : ∀ clock (st : Store),
  Forall admissible configs → all_sound sound st →
  all_sound sound (checkMultipleRateLimits identifier configs clock st).2.
Proof.
  induction configs as [|config rest IH]; intros clock st Hconfigs Hst; [done|].
  apply Forall_cons in Hconfigs as [Hconfig Hrest].
  cbn [checkMultipleRateLimits]. unfold bind, ret.
  pose proof (checkRateLimit_sound identifier config (clock 0%nat) st
    Hconfig Hst) as Hstep.
  destruct (checkRateLimit identifier config (clock 0%nat) st) as [r st1].
  cbn [snd] in Hstep. destruct (allowed r); [by apply IH|done].
Qed.

Lemma perform_sound call (st : Store) :
  admissible_call admissible call → all_sound sound st →
  all_sound sound (perform call st).
Proof.
  intros Hcall Hst.
  destruct call as [identifier config now|identifier configs clock|identifier|
                    |now|identifier config now|text now]; cbn [perform].
  - by apply checkRateLimit_sound.
  - by apply checkMultipleRateLimits_sound.
  - intros key log. unfold resetRateLimit, store_set. cbn [snd].
    rewrite lookup_insert. case_decide; [|apply Hst]. by intros [= <-].
  - intros key log. unfold clearAllRateLimits, store_clear. cbn [snd].
    by rewrite lookup_empty.
  - intros key log. rewrite cleanup_lookup_any.
    destruct (st !! key) as [log'|] eqn:Hlog; [|done].
    destruct (sweepable now log'); [done|]. intros [= <-]. by apply (Hst key).
  - unfold getRateLimitStatus, bind, store_get, ret.
    by destruct (st !! identifier).
  - done.
Qed.

Lemma fold_perform_sound calls : ∀ st : Store,
  Forall (admissible_call admissible) calls → all_sound sound st →
  all_sound sound (fold_left (λ st call, perform call st) calls st).
Proof.
  induction calls as [|call rest IH]; intros st Hcalls Hst; [done|].
  apply Forall_cons in Hcalls as [Hcall Hrest]. cbn [fold_left].
  apply IH; [done|]. by apply perform_sound.
Qed.
End session_invariant.

(** X13: the store never holds a latched log without its [blockUntil].
    After any session of calls (checks, multi-policy checks, resets, clears,
    sweeps, status and statistics queries, in any order and with any clock
    readings) a stored log with [blocked = true] has [blockUntil] set; if
    every policy used had [maxRequests >= 1], it is a number, not [NaN], and
    the log has a timestamp. *)
Theorem latch_has_blockUntil calls key log :
  session calls !! key = Some log →
  blocked log = true →
  (∃ until, blockUntil log = Some until) ∧
  (Forall quota_positive_in calls →
   ∃ b, blockUntil log = Some (Int b) ∧ timestamps log ≠ []).
Proof.
  intros Hlog Hblocked. split.
  - refine (fold_perform_sound
      (λ log, blocked log = true → ∃ until, blockUntil log = Some until)
      (λ _, True) _ _ calls ∅ _ _ key log Hlog Hblocked).
    + done.
    + intros config now log' _ Hsound. unfold check_log.
      destruct (active_block now log'); [done|]. case_match; simpl; eauto.
      done.
    + apply Forall_forall. intros call _.
      destruct call; cbn; try done. by apply Forall_forall.
    + intros key' log'. by rewrite lookup_empty.
  - intros Hcalls.
    refine (fold_perform_sound
      (λ log, blocked log = true →
              ∃ b, blockUntil log = Some (Int b) ∧ timestamps log ≠ [])
      (λ config, 1 ≤ maxRequests config) _ _ calls ∅ _ _ key log Hlog Hblocked).
    + done.
    + intros config now log' Hmax Hsound. unfold check_log.
      destruct (active_block now log'); [done|].
      destruct (Z.leb_spec (maxRequests config)
        (Z.of_nat (length (in_window now (windowMs config) (timestamps log')))))
        as [Hfull|Hroom]; simpl; [|done].
      intros _.
      destruct (in_window now (windowMs config) (timestamps log'))
        as [|t kept]; [simpl in Hfull; lia|]. simpl. eauto.
    + exact Hcalls.
    + intros key' log'. by rewrite lookup_empty.
Qed.

Lemma latch_has_blockUntil_witness :
  let calls := [Check "client" tight 0; Check "client" tight 10;
                Check "client" tight 20; Sweep 30;
                Status "client" lenient 40; Reset "other"] in
  let log := {| timestamps := [0; 10]; blocked := true;
                blockUntil := Some (Int 1000) |} in
  session calls !! "client" = Some log ∧
  blocked log = true ∧
  (∃ until, blockUntil log = Some until) ∧
  (Forall quota_positive_in calls →
   ∃ b, blockUntil log = Some (Int b) ∧ timestamps log ≠ []).
Proof.
  intros calls log.
  assert (session calls !! "client" = Some log) as Hlog
    by (vm_compute; reflexivity).
  assert (blocked log = true) as Hblocked by reflexivity.
  split; [exact Hlog|]. split; [exact Hblocked|].
  exact (latch_has_blockUntil calls "client" log Hlog Hblocked).
Defined.

(** ** More on checkMultipleRateLimits *)

(** X14: on a latched identifier [checkMultipleRateLimits] stops at its
    first config, whichever policy caused the latch: before [blockUntil]
    the result is Denied with remaining 0 and [resetAt = blockUntil], its
    message is the message of the first config when that is a non-empty
    string and the text 'Rate limit exceeded. Please try again later.' when
    it is absent or empty, and the store is left as it was.  With no config
    at all the answer is Allowed, latch or not. *)
Theorem checkMultipleRateLimits_latched identifier config rest clock
    (st : Store) b :
  blocked (log_of st identifier) = true →
  blockUntil (log_of st identifier) = Some (Int b) →
  0 ≤ clock 0%nat < b →
  checkMultipleRateLimits identifier (config :: rest) clock st =
    ({| allowed := false; remaining := 0; resetAt := Int b;
        r_message :=
          Some match message config with
               | Some (String c s) => String c s
               | Some EmptyString | None =>
                   "Rate limit exceeded. Please try again later."
               end |}, st) ∧
  checkMultipleRateLimits identifier [] clock st =
    ({| allowed := true; remaining := -1; resetAt := Int (clock 0%nat);
        r_message := None |}, st).
Proof.
  intros Hblocked Huntil Hnow. split; [|done].
  cbn [checkMultipleRateLimits]. unfold bind, ret.
  rewrite checkRateLimit_check_log.
  rewrite (check_log_latched config _ _ b) by done.
  cbn [fst snd allowed write_back].
  unfold denied, denial_message, default_denial.
  by destruct (message config) as [[|c s]|].
Qed.

Lemma checkMultipleRateLimits_latched_witness :
  let st : Store :=
    {[ "client" := {| timestamps := [0; 10]; blocked := true;
                      blockUntil := Some (Int 1000) |} ]} in
  let clock := λ _ : nat, 500 in
  blocked (log_of st "client") = true ∧
  blockUntil (log_of st "client") = Some (Int 1000) ∧
  0 ≤ clock 0%nat < 1000 ∧
  checkMultipleRateLimits "client" (lenient :: [tight]) clock st =
    ({| allowed := false; remaining := 0; resetAt := Int 1000;
        r_message := Some "lenient" |}, st) ∧
  checkMultipleRateLimits "client" (tight :: [lenient]) clock st =
    ({| allowed := false; remaining := 0; resetAt := Int 1000;
        r_message := Some "Rate limit exceeded. Please try again later." |},
     st) ∧
  checkMultipleRateLimits "client" [] clock st =
    ({| allowed := true; remaining := -1; resetAt := Int 500;
        r_message := None |}, st).
Proof.
  intros st clock.
  assert (blocked (log_of st "client") = true) as Hblocked by reflexivity.
  assert (blockUntil (log_of st "client") = Some (Int 1000)) as Huntil
    by reflexivity.
  assert (0 ≤ clock 0%nat < 1000) as Hnow by (unfold clock; lia).
  split; [exact Hblocked|]. split; [exact Huntil|]. split; [exact Hnow|].
  destruct (checkMultipleRateLimits_latched "client" lenient [tight] clock st
              1000 Hblocked Huntil Hnow) as [Hfirst Hnone].
  destruct (checkMultipleRateLimits_latched "client" tight [lenient] clock st
              1000 Hblocked Huntil Hnow) as [Hdefault _].
  split; [exact Hfirst|]. split; [exact Hdefault|exact Hnone].
Defined.

Lemma in_window_replicate now window n :
  1 ≤ window → in_window now window (replicate n now) = replicate n now.
Proof.
  intros Hwin. apply in_window_all, Forall_replicate. lia.
Qed.

Lemma checkMultipleRateLimits_pushes identifier now configs :
  ∀ (st : Store) older count,
  timestamps (log_of st identifier) = older ++ replicate count now →
  Forall (λ config, 1 ≤ windowMs config) configs →
  allowed (checkMultipleRateLimits identifier configs (λ _, now) st).1 = true →
  ∃ kept, kept `sublist_of` older ∧
    timestamps
      (log_of (checkMultipleRateLimits identifier configs (λ _, now) st).2
         identifier) =
    kept ++ replicate (count + length configs) now.
Proof.
  induction configs as [|config rest IH]; intros st older count Hlog Hwin Hall.
  - exists older. split; [done|]. cbn. by rewrite Nat.add_0_r.
  - apply Forall_cons in Hwin as [Hwin Hrest].
    cbn [checkMultipleRateLimits] in *. unfold bind, ret in *.
    rewrite checkRateLimit_check_log in *. unfold check_log in *.
    destruct (active_block now (log_of st identifier)); [done|].
    destruct (maxRequests config <=? _); [done|].
    cbn [fst snd allowed] in *.
    set (st1 := write_back identifier (Some _) st) in *.
    assert (timestamps (log_of st1 identifier) =
            in_window now (windowMs config) older ++ replicate (S count) now)
      as Hts.
    { subst st1. rewrite log_of_write_back. simpl. rewrite Hlog.
      unfold in_window at 1. rewrite filter_app.
      fold (in_window now (windowMs config) older).
      fold (in_window now (windowMs config) (replicate count now)).
      rewrite in_window_replicate by done.
      by rewrite <- app_assoc, <- replicate_S_end. }
    destruct (IH st1 _ (S count) Hts Hrest Hall) as (kept & Hsub & Hfinal).
    exists kept. split.
    + etrans; [exact Hsub|]. apply sublist_filter.
    + rewrite Hfinal. cbn [length]. by rewrite Nat.add_succ_r.
Qed.

(** X15: a request that passes [n] configs is recorded [n] times.  When
    [checkMultipleRateLimits] returns Allowed for configs with
    [windowMs >= 1], all evaluated at one clock reading [now], the log of
    the identifier ends with one [now] per config, after what is left of
    the timestamps it held before. *)
Theorem checkMultipleRateLimits_counts_each_config identifier configs now
    (st : Store) :
  Forall (λ config, 1 ≤ windowMs config) configs →
  allowed (checkMultipleRateLimits identifier configs (λ _, now) st).1 = true →
  ∃ kept, kept `sublist_of` timestamps (log_of st identifier) ∧
    timestamps
      (log_of (checkMultipleRateLimits identifier configs (λ _, now) st).2
         identifier) =
    kept ++ replicate (length configs) now.
Proof.
  intros Hwin Hall.
  apply (checkMultipleRateLimits_pushes identifier now configs st
           (timestamps (log_of st identifier)) 0); [|done..].
  cbn. by rewrite app_nil_r.
Qed.

Lemma checkMultipleRateLimits_counts_each_config_witness :
  Forall (λ config, 1 ≤ windowMs config) [lenient; roomy] ∧
  allowed (checkMultipleRateLimits "client" [lenient; roomy] (λ _, 5)
             one_request).1 = true ∧
  ∃ kept, kept `sublist_of` timestamps (log_of one_request "client") ∧
    timestamps
      (log_of (checkMultipleRateLimits "client" [lenient; roomy] (λ _, 5)
                 one_request).2 "client") =
    kept ++ replicate (length [lenient; roomy]) 5.
Proof.
  assert (Forall (λ config, 1 ≤ windowMs config) [lenient; roomy]) as Hwin
    by (repeat constructor; simpl; lia).
  assert (allowed (checkMultipleRateLimits "client" [lenient; roomy] (λ _, 5)
                     one_request).1 = true) as Hall by reflexivity.
  split; [exact Hwin|]. split; [exact Hall|].
  exact (checkMultipleRateLimits_counts_each_config "client" [lenient; roomy]
           5 one_request Hwin Hall).
Defined.

(** ** Keys scoped to an endpoint *)

Lemma append_empty (s : string) : EmptyString +:+ s = s.
Proof. reflexivity. Qed.

Lemma append_cons c (rest s : string) :
  String c rest +:+ s = String c (rest +:+ s).
Proof. reflexivity. Qed.

Lemma createRateLimitKey_same_identifier identifier e1 e2 :
  createRateLimitKey identifier e1 = createRateLimitKey identifier e2 →
  e1 = e2.
Proof.
  unfold createRateLimitKey.
  induction identifier as [|c rest IH].
  - rewrite !append_empty, !append_cons, !append_empty. by intros [= ->].
  - rewrite !append_cons. intros [= Heq]. by apply IH.
Qed.

(** X16: on identifiers without a colon [createRateLimitKey] is
    injective: equal keys come from equal identifiers and equal endpoints.
    With a colon in the identifier it is not: the pairs ("a:b", "c") and
    ("a", "b:c") get the same key. *)
Theorem createRateLimitKey_injective id1 id2 e1 e2 :
  colon_free id1 = true → colon_free id2 = true →
  (createRateLimitKey id1 e1 = createRateLimitKey id2 e2 →
   id1 = id2 ∧ e1 = e2) ∧
  createRateLimitKey "a:b" "c" = createRateLimitKey "a" "b:c".
Proof.
  intros Hfree1 Hfree2. split; [|reflexivity].
  unfold createRateLimitKey. revert id2 Hfree1 Hfree2.
  induction id1 as [|c1 rest1 IH]; intros [|c2 rest2] Hfree1 Hfree2 Heq;
    rewrite ?append_empty, ?append_cons, ?append_empty in Heq; cbn in *.
  - by injection Heq as ->.
  - injection Heq as Hc _. by rewrite <- Hc in Hfree2.
  - injection Heq as Hc _. by rewrite Hc in Hfree1.
  - injection Heq as -> Heq.
    apply andb_true_iff in Hfree1 as [_ Hfree1].
    apply andb_true_iff in Hfree2 as [_ Hfree2].
    destruct (IH rest2 Hfree1 Hfree2 Heq) as [-> ->]. done.
Qed.

Lemma createRateLimitKey_injective_witness :
  colon_free "203.0.113.7" = true ∧ colon_free "203.0.113.7" = true ∧
  (createRateLimitKey "203.0.113.7" "upload" =
     createRateLimitKey "203.0.113.7" "upload" →
   "203.0.113.7" = "203.0.113.7" ∧ "upload" = "upload") ∧
  createRateLimitKey "a:b" "c" = createRateLimitKey "a" "b:c".
Proof.
  assert (colon_free "203.0.113.7" = true) as Hfree by reflexivity.
  split; [exact Hfree|]. split; [exact Hfree|].
  exact (createRateLimitKey_injective "203.0.113.7" "203.0.113.7"
           "upload" "upload" Hfree Hfree).
Defined.

(** X17: limits scoped to different endpoints of one identifier are
    independent: a call on the key of one endpoint changes neither the
    stored log nor the next decision for the key of another endpoint. *)
Theorem endpoint_keys_independent identifier e1 e2 c1 c2 n1 n2 (st : Store) :
  e1 ≠ e2 →
  let k1 := createRateLimitKey identifier e1 in
  let k2 := createRateLimitKey identifier e2 in
  (checkRateLimit k1 c1 n1 st).2 !! k2 = st !! k2 ∧
  (checkRateLimit k2 c2 n2 (checkRateLimit k1 c1 n1 st).2).1 =
    (checkRateLimit k2 c2 n2 st).1.
Proof.
  intros Hne k1 k2.
  assert (k1 ≠ k2) as Hkeys.
  { intros Heq. by apply Hne, (createRateLimitKey_same_identifier identifier). }
  rewrite !checkRateLimit_check_log. cbn [fst snd].
  rewrite write_back_other by done.
  by rewrite log_of_write_back_other.
Qed.

Lemma endpoint_keys_independent_witness :
  "upload" ≠ "ocr" ∧
  let k1 := createRateLimitKey "203.0.113.7" "upload" in
  let k2 := createRateLimitKey "203.0.113.7" "ocr" in
  (checkRateLimit k1 DEFAULT_RATE_LIMITS_upload 5 ∅).2 !! k2 =
    (∅ : Store) !! k2 ∧
  (checkRateLimit k2 DEFAULT_RATE_LIMITS_ocr 6
     (checkRateLimit k1 DEFAULT_RATE_LIMITS_upload 5 ∅).2).1 =
    (checkRateLimit k2 DEFAULT_RATE_LIMITS_ocr 6 ∅).1.
Proof.
  assert ("upload" ≠ "ocr") as Hne by discriminate.
  split; [exact Hne|].
  exact (endpoint_keys_independent "203.0.113.7" "upload" "ocr"
           DEFAULT_RATE_LIMITS_upload DEFAULT_RATE_LIMITS_ocr 5 6 ∅ Hne).
Defined.

(** ** The status *)

(** X18: for a policy with [maxRequests >= 0] and [windowMs >= 1] the
    status is well formed whether or not the identifier is known:
    [max] is the policy's [maxRequests], [current] is not negative,
    [remaining] is [max 0 (maxRequests - current)], and [resetAt] is
    strictly after the clock reading. *)
Theorem getRateLimitStatus_well_formed identifier config now (st : Store) :
  0 ≤ maxRequests config →
  1 ≤ windowMs config →
  let status := (getRateLimitStatus identifier config now st).1 in
  max status = maxRequests config ∧
  0 ≤ current status ∧
  s_remaining status = Z.max 0 (maxRequests config - current status) ∧
  now < s_resetAt status.
Proof.
  intros Hmax Hwin status. subst status.
  unfold getRateLimitStatus, bind, store_get, ret.
  destruct (st !! identifier) as [log|]; cbn.
  - split; [done|]. split; [lia|]. split; [done|].
    destruct (in_window now (windowMs config) (timestamps log))
      as [|t recent] eqn:Hrecent; cbn; [lia|].
    destruct (Z.eqb_spec t 0); [lia|].
    apply (in_window_head_future now _ (timestamps log)). by rewrite Hrecent.
  - split; [done|]. split; [done|]. split; lia.
Qed.

Lemma getRateLimitStatus_well_formed_witness :
  0 ≤ maxRequests DEFAULT_RATE_LIMITS_api ∧
  1 ≤ windowMs DEFAULT_RATE_LIMITS_api ∧
  let status :=
    (getRateLimitStatus "client" DEFAULT_RATE_LIMITS_api 5 one_request).1 in
  max status = maxRequests DEFAULT_RATE_LIMITS_api ∧
  0 ≤ current status ∧
  s_remaining status =
    Z.max 0 (maxRequests DEFAULT_RATE_LIMITS_api - current status) ∧
  5 < s_resetAt status.
Proof.
  assert (0 ≤ maxRequests DEFAULT_RATE_LIMITS_api) as Hmax by (simpl; lia).
  assert (1 ≤ windowMs DEFAULT_RATE_LIMITS_api) as Hwin by (simpl; lia).
  split; [exact Hmax|]. split; [exact Hwin|].
  exact (getRateLimitStatus_well_formed "client" DEFAULT_RATE_LIMITS_api 5
           one_request Hmax Hwin).
Defined.

(** ** What a call records *)

(** X19: a denied request is never recorded, an admitted one always is.
    After a Denied call the stored timestamps are a part of those stored
    before, in the same order; after an Allowed call they are such a part
    followed by the clock reading of the call. *)
Theorem checkRateLimit_records identifier config now (st : Store) :
  let before := timestamps (log_of st identifier) in
  let after :=
    timestamps (log_of (checkRateLimit identifier config now st).2 identifier) in
  if allowed (checkRateLimit identifier config now st).1
  then ∃ kept, kept `sublist_of` before ∧ after = kept ++ [now]
  else after `sublist_of` before.
Proof.
  intros before after. subst before after.
  rewrite checkRateLimit_check_log. cbn [fst snd].
  rewrite log_of_write_back. unfold check_log.
  destruct (active_block now (log_of st identifier)); [simpl; reflexivity|].
  destruct (maxRequests config <=? _); simpl.
  - apply sublist_filter.
  - exists (in_window now (windowMs config) (timestamps (log_of st identifier))).
    split; [apply sublist_filter|done].
Qed.

(** The single policy in the sliding-window guarantee is needed: the log
    is shared by all policies used with an identifier, and a call under a
    policy with a short window purges timestamps a policy with a long window
    still counts.  Here the calls under {maxRequests: 2, windowMs: 1000} at
    t=0, 1 and 201 are all admitted, the call at t=200 being one under
    {maxRequests: 5, windowMs: 100}. *)
Example mixed_windows_exceed_quota :
  let brief := {| maxRequests := 5; windowMs := 100; message := None |} in
  admitted [0; 1; 200; 201; 202]
    (run_checks "client"
       [(tight, 0); (tight, 1); (brief, 200); (tight, 201); (tight, 202)] ∅).1
  = [0; 1; 200; 201].
Proof. vm_compute. reflexivity. Qed.

(** The bound on the window in the transparency of the sweep is needed:
    under a two-hour window the sweep at t=4000000 forgets requests that
    still count. *)
Example long_window_not_transparent :
  let patient := {| maxRequests := 2; windowMs := 7200000; message := None |} in
  allowed (checkRateLimit "client" patient 4000001 long_idle_store).1 = false ∧
  allowed (checkRateLimit "client" patient 4000001
             (cleanup 4000000 long_idle_store).2).1 = true.
Proof. split; vm_compute; reflexivity. Qed.
